(** * PAMM shortcut expansion and the clustering base class of PLUMED

    A shallow embedding of [src/pamm/PAMM.cpp] and
    [src/clusters/ClusteringBase.h].

    - [std::string] is [string], [std::vector<std::string>] is [list string],
      the vector of actions is a [list (list string)];
    - [std::map<std::string,std::string>] is a [gmap string string];
    - [unsigned] is an [N] kept below [2^32] by [u32];
    - a call that throws ([plumed_error], [plumed_assert], ...) or that the
      C++ standard leaves undefined is an [outcome] other than [Ok]. *)

From Stdlib Require Import Ascii QArith Lqa.
From Stdlib Require SpecFloat.
From stdpp Require Import base numbers list strings pretty gmap.

Open Scope N_scope.

(** ** Outcomes of fallible code *)

Inductive outcome (A : Type) : Type :=
| Ok (a : A)
| PlumedError   (* an exception of the plumed_error / plumed_assert family *)
| Undefined     (* undefined behaviour: end() dereferenced, index out of range *)
| OutOfFuel.    (* the model ran out of loop iterations; the code has no such case *)
Arguments Ok {A} a.
Arguments PlumedError {A}.
Arguments Undefined {A}.
Arguments OutOfFuel {A}.

Definition obind {A B} (x : outcome A) (f : A → outcome B) : outcome B :=
  match x with
  | Ok a => f a
  | PlumedError => PlumedError
  | Undefined => Undefined
  | OutOfFuel => OutOfFuel
  end.

Notation "x ←! y ; z" := (obind y (λ x, z))
  (at level 20, y at level 100, z at level 200, only parsing).
Notation "' x ←! y ; z" := (obind y (λ x, z))
  (at level 20, x pattern, y at level 100, z at level 200, only parsing).

Definition is_Ok {A} (x : outcome A) : bool :=
  match x with Ok _ => true | _ => false end.

(** [plumed_error()] never returns. *)
Definition plumed_error {A} : outcome A := PlumedError.

(** [plumed_assert(b)] throws when [b] is false. *)
Definition plumed_assert (b : bool) : outcome unit :=
  if b then Ok () else PlumedError.

(** ** Machine integers and the string helpers of [tools/Tools.h] *)

(** [unsigned] arithmetic wraps modulo [2^32]. *)
Definition u32 (n : N) : N := n `mod` 2 ^ 32.

(** Modelled from the spec: [Tools::convert(unsigned, std::string&)] is
    declared in tools/Tools.h, which is not part of the sources at hand; it
    writes the decimal representation of the number (the labels [-1], [-2],
    ... of the outputs). *)
Definition convert (n : N) : string := pretty n.

Fixpoint is_sep (seps : string) (c : ascii) : bool :=
  match seps with
  | "" => false
  | String s seps' => if decide (s = c) then true else is_sep seps' c
  end.

Definition flush (cur : string) : list string :=
  if decide (cur = "") then [] else [cur].

Fixpoint getWords_go (seps cur s : string) : list string :=
  match s with
  | "" => flush cur
  | String c s' =>
      if is_sep seps c then flush cur ++ getWords_go seps "" s'
      else getWords_go seps (cur +:+ String c "") s'
  end.

(** Modelled from the spec: [Tools::getWords(line, separators)] is not part
    of the sources at hand; it cuts the ordered list of input names at the
    separator characters and drops the empty pieces. *)
Definition getWords (line seps : string) : list string :=
  getWords_go seps "" line.

(** The separator set ["\t\n ,"] of the [DATA] keyword. *)
Definition data_separators : string :=
  String "009"%char (String "010"%char " ,").

(** ** Actions, keyword maps and the kernel file *)

Abbreviation action := (list string).
Abbreviation keymap := (gmap string string).

(** [keys.find(k)->second]: dereferencing [end()] is undefined. *)
Definition find_second (keys : keymap) (k : string) : outcome string :=
  match keys !! k with
  | Some v => Ok v
  | None => Undefined
  end.

(** [words[0]] on a [std::vector]: undefined when the vector is empty. *)
Definition words_0 (words : list string) : outcome string :=
  match words with
  | w :: _ => Ok w
  | [] => Undefined
  end.

(** What the expansion uses of a [KernelFunctions] object. *)
Record KernelFunctions := { getInputString : string }.

(** An open [IFile]: the data records that are still to be read. *)
Record IFile := { records : list string }.

(** The names the expansion gives its actions. *)
Definition kernel_label (lab : string) (k : N) : string :=
  lab +:+ "_kernel-" +:+ convert k.
Definition output_label (lab : string) (k : N) : string :=
  lab +:+ "-" +:+ convert k.
Definition ksum_label (lab : string) : string := lab +:+ "_ksum".
Definition rksum_label (lab : string) : string := lab +:+ "_rksum".

Section Expansion.

(** [KernelFunctions::read] on one record of the file, for the given value
    names; [None] is a record the reader rejects (tools/KernelFunctions.h is
    not part of the sources at hand). *)
Variable parseRecord : string → list string → option KernelFunctions.

(** [multicolvar::MultiColvarBase::expandFunctions(labout, argin, weights,
    words, keys, actions)]: the actions it appends to [actions]
    (multicolvar/MultiColvarBase.h is not part of the sources at hand). *)
Variable expandFunctions :
  string → string → string → list string → keymap → list action.

(** The files [IFile::open] can see, by name. *)
Variable files : gmap string (list string).

(** [ifile.open(fname)] throws when the file cannot be opened. *)
Definition IFile_open (fname : string) : outcome IFile :=
  match files !! fname with
  | Some rs => Ok {| records := rs |}
  | None => PlumedError
  end.

(** [KernelFunctions::read(&ifile, false, valnames)]: a null pointer when no
    further record can be read, the kernel of the current record otherwise,
    an exception on a record the reader rejects. The record stays current
    until [scanField] is called. *)
Definition KernelFunctions_read (ifile : IFile) (valnames : list string)
  : outcome (option KernelFunctions) :=
  match records ifile with
  | [] => Ok None
  | r :: _ =>
      match parseRecord r valnames with
      | Some kk => Ok (Some kk)
      | None => PlumedError
      end
  end.

(** [ifile.scanField()] closes the current record and moves to the next. *)
Definition scanField (ifile : IFile) : IFile :=
  {| records := tail (records ifile) |}.

(** The loop [for(unsigned j=0;j<valnames.size();++j)] of lines 146-148,
    started at [j]; it pushes ["ARG" + jstr + "=" + valnames[j]]. (With
    [2^32] names or more the loop of the code would not end; the model walks
    the list once.) *)
Fixpoint arg_loop (j : N) (valnames : list string) : list string :=
  match valnames with
  | [] => []
  | v :: rest =>
      ("ARG" +:+ convert (u32 (j + 1)) +:+ "=" +:+ v)
        :: arg_loop (u32 (j + 1)) rest
  end.

(** The vector [kinput] of lines 144-149. *)
Definition kinput (lab : string) (valnames : list string) (num : string)
    (kk : KernelFunctions) : action :=
  [lab +:+ "_kernel-" +:+ num +:+ ":"; "KERNEL"; "NORMALIZED"]
    ++ arg_loop 0 valnames
    ++ ["KERNEL=" +:+ getInputString kk].

(** The loop [for(unsigned k=0;; ++k)] of lines 140-153. The loop has no
    bound of its own: it ends when the reader returns a null pointer. *)
Fixpoint kernel_loop (fuel : nat) (lab : string) (valnames : list string)
    (k : N) (ifile : IFile) (actions : list action) (nkernels : N)
  : outcome (IFile * list action * N) :=
  match fuel with
  | O => OutOfFuel
  | S fuel' =>
      kk ←! KernelFunctions_read ifile valnames;
      match kk with
      | None => Ok (ifile, actions, nkernels)
      | Some kk =>
          let num := convert (u32 (k + 1)) in
          kernel_loop fuel' lab valnames (u32 (k + 1)) (scanField ifile)
            (actions ++ [kinput lab valnames num kk]) (u32 (nkernels + 1))
      end
  end.

(** The values [0, 1, ..., n-1] of a loop [for(unsigned k=0;k<n;++k)]. *)
Definition uint_range (n : N) : list N :=
  N.of_nat <$> seq 0 (N.to_nat n).

(** The vector [cinput] of lines 157-162. *)
Definition cinput (lab : string) (nkernels : N) : action :=
  [lab +:+ "_ksum:"; "COMBINE"]
    ++ ((λ k, let num := convert (u32 (k + 1)) in
              "ARG" +:+ num +:+ "=" +:+ lab +:+ "_kernel-" +:+ num)
          <$> uint_range nkernels)
    ++ ["PERIODIC=NO"].

(** The vector [minput] of lines 165-167. *)
Definition minput (lab regularise : string) : action :=
  [lab +:+ "_rksum:"; "MATHEVAL"; "ARG1=" +:+ lab +:+ "_ksum";
   "FUNC=x+" +:+ regularise; "PERIODIC=NO"].

(** The vector [finput] of lines 172-175. *)
Definition finput (lab num : string) : action :=
  [lab +:+ "-" +:+ num +:+ ":"; "MATHEVAL";
   "ARG1=" +:+ lab +:+ "_kernel-" +:+ num;
   "ARG2=" +:+ lab +:+ "_rksum"; "FUNC=x/y"; "PERIODIC=NO"].

(** One iteration of the loop of lines 170-177. *)
Definition responsibility_step (lab : string) (words : list string)
    (keys : keymap) (actions : list action) (k : N) : list action :=
  let num := convert (u32 (k + 1)) in
  (actions ++ [finput lab num])
    ++ expandFunctions (lab +:+ "-" +:+ num) (lab +:+ "-" +:+ num) ""
         words keys.

(** [PAMM::expandShortcut], lines 129-178. The vector [actions] is passed
    by reference; the model returns its final contents. The calls
    [ifile.allowIgnoredFields()] and [ifile.close()] change nothing that the
    expansion reads afterwards and are left out. *)
Definition expandShortcut (fuel : nat) (lab : string) (words : list string)
    (keys : keymap) (actions : list action) : outcome (list action) :=
  w0 ←! words_0 words;
  _ ←! plumed_assert (bool_decide (w0 = "PAMM"));
  data ←! find_second keys "DATA";
  let valnames := getWords data data_separators in
  let nkernels := 0 in
  fname ←! find_second keys "CLUSTERS";
  ifile ←! IFile_open fname;
  '(ifile, actions, nkernels) ←!
    kernel_loop fuel lab valnames 0 ifile actions nkernels;
  let actions := actions ++ [cinput lab nkernels] in
  regularise ←! find_second keys "REGULARISE";
  let actions := actions ++ [minput lab regularise] in
  Ok (foldl (responsibility_step lab words keys) actions
        (uint_range nkernels)).

(** The words of a [KERNEL] action after its label and name. *)
Definition kernel_words (valnames : list string) (kk : KernelFunctions)
  : list string :=
  ["NORMALIZED"] ++ arg_loop 0 valnames ++ ["KERNEL=" +:+ getInputString kk].

(** The [KERNEL] actions of the kernels [kks], the first of them being
    kernel number [k + 1]. *)
Fixpoint kernel_actions (lab : string) (valnames : list string) (k : N)
    (kks : list KernelFunctions) : list action :=
  match kks with
  | [] => []
  | kk :: rest =>
      kinput lab valnames (convert (k + 1)) kk
        :: kernel_actions lab valnames (k + 1) rest
  end.

(** The [COMBINE] action over the kernels [1..n]. *)
Definition ksum_action (lab : string) (n : N) : action :=
  [lab +:+ "_ksum:"; "COMBINE"]
    ++ ((λ k, "ARG" +:+ convert (k + 1) +:+ "=" +:+ lab +:+ "_kernel-"
                +:+ convert (k + 1)) <$> uint_range n)
    ++ ["PERIODIC=NO"].

(** What one kernel adds after the regularised sum: its responsibility and
    the functions of it. *)
Definition responsibility_block (lab : string) (words : list string)
    (keys : keymap) (k : N) : list action :=
  finput lab (convert (k + 1))
    :: expandFunctions (lab +:+ "-" +:+ convert (k + 1))
         (lab +:+ "-" +:+ convert (k + 1)) "" words keys.

Definition responsibility_actions (lab : string) (words : list string)
    (keys : keymap) (n : N) : list action :=
  concat (responsibility_block lab words keys <$> uint_range n).

(** An input the expansion accepts: the directive is [PAMM], the three
    compulsory keywords are set, the kernel file opens, and each of its
    records [rs] is read as the kernel at the same place in [kks]. *)
Record accepted (words : list string) (keys : keymap) (data regularise : string)
    (rs : list string) (kks : list KernelFunctions) : Prop := {
  acc_directive : words_0 words = Ok "PAMM";
  acc_data : keys !! "DATA" = Some data;
  acc_file : ∃ fname, keys !! "CLUSTERS" = Some fname ∧ files !! fname = Some rs;
  acc_regularise : keys !! "REGULARISE" = Some regularise;
  acc_records :
    Forall2 (λ r kk, parseRecord r (getWords data data_separators) = Some kk)
      rs kks;
  acc_count : N.of_nat (length rs) < 2 ^ 32;
}.

End Expansion.

(** ** Keywords of the shortcut *)

(** One [Keywords::add] entry: style, key, default value (if any) and the
    documentation string. *)
Record Keyword := {
  kw_style : string;
  kw_key : string;
  kw_default : option string;
  kw_doc : string;
}.

Abbreviation Keywords := (list Keyword).

(** [keys.add(style, key, doc)]. *)
Definition Keywords_add (keys : Keywords) (style key doc : string) : Keywords :=
  keys ++ [{| kw_style := style; kw_key := key; kw_default := None;
              kw_doc := doc |}].

(** [keys.add(style, key, default, doc)]. *)
Definition Keywords_add_default (keys : Keywords) (style key def doc : string)
  : Keywords :=
  keys ++ [{| kw_style := style; kw_key := key; kw_default := Some def;
              kw_doc := doc |}].

Section ShortcutKeywords.

(** [multicolvar::MultiColvarBase::shortcutKeywords(keys)]: the entries it
    adds (multicolvar/MultiColvarBase.h is not part of the sources at
    hand). *)
Variable MultiColvarBase_shortcutKeywords : Keywords.

(** [PAMM::shortcutKeywords], lines 122-127. *)
Definition shortcutKeywords (keys : Keywords) : Keywords :=
  let keys := Keywords_add keys "compulsory" "DATA"
    "the vectors from which the pamm coordinates are calculated" in
  let keys := Keywords_add keys "compulsory" "CLUSTERS"
    "the name of the file that contains the definitions of all the clusters" in
  let keys := Keywords_add_default keys "compulsory" "REGULARISE" "0.001"
    "don't allow the denominator to be smaller then this value" in
  keys ++ MultiColvarBase_shortcutKeywords.

End ShortcutKeywords.

(** Modelled from the spec: the code that hands the options of an input line
    to [expandShortcut] (core/ActionRegister, core/Keywords) is not part of
    the sources at hand. The spec calls the regularization floor a
    configurable option with a default: an option the caller supplies keeps
    its value, and a registered keyword the caller leaves out takes its
    default, the first registration of a key winning as in
    [std::map::insert]. *)
Definition readKeywords (registered : Keywords) (supplied : keymap) : keymap :=
  foldl (λ m kw,
           match kw_default kw, m !! kw_key kw with
           | Some d, None => <[kw_key kw := d]> m
           | _, _ => m
           end) supplied registered.

(** [PLUMED_REGISTER_SHORTCUT(PAMM,"PAMM")], line 120: the directive under
    which [shortcutKeywords] and [expandShortcut] are registered. *)
Definition registered_directive : string := "PAMM".

(** ** The constructor *)

(** [const ActionOptions&]: the words of the input line. *)
Record ActionOptions := { ao_line : list string }.

Section Constructor.

(** The base classes [Action] and [ActionSetup] and their constructors
    (core/Action.h and core/ActionSetup.h are not part of the sources at
    hand; they may throw). *)
Variables Action ActionSetup : Type.
Variable Action_ctor : ActionOptions → outcome Action.
Variable ActionSetup_ctor : ActionOptions → outcome ActionSetup.

Record PAMM_object := {
  base_Action : Action;
  base_ActionSetup : ActionSetup;
}.

(** [PAMM::PAMM(const ActionOptions&)], lines 185-190: the two base
    constructors, then [plumed_error()]. *)
Definition PAMM (ao : ActionOptions) : outcome PAMM_object :=
  a ←! Action_ctor ao;
  s ←! ActionSetup_ctor ao;
  _ ←! @plumed_error unit;
  Ok {| base_Action := a; base_ActionSetup := s |}.

End Constructor.

(** ** What the expanded actions compute *)

Fixpoint strip_colon (w : string) : option string :=
  match w with
  | "" => None
  | String c w' =>
      match w' with
      | "" => if decide (c = ":"%char) then Some "" else None
      | _ => String c <$> strip_colon w'
      end
  end.

(** [key=value]: the text before and after the first [=]. *)
Fixpoint split_eq (w : string) : string * string :=
  match w with
  | "" => ("", "")
  | String c w' =>
      if decide (c = "="%char) then ("", w')
      else let '(k, v) := split_eq w' in (String c k, v)
  end.

Fixpoint keyword (key : string) (args : list string) : option string :=
  match args with
  | [] => None
  | w :: rest =>
      let '(k, v) := split_eq w in
      if decide (k = key) then Some v else keyword key rest
  end.

Fixpoint strip_prefix (p s : string) : option string :=
  match p, s with
  | "", _ => Some s
  | String a p', String b s' =>
      if decide (a = b) then strip_prefix p' s' else None
  | String _ _, "" => None
  end.

Section Semantics.

(** The numbers ([double] in the code) with their addition and division,
    the constants of a [FUNC] expression, and the value the kernel
    evaluator gives a [KERNEL] action at the current evaluation point. *)
Context {num : Type}.
Variable zero : num.
Variables add div : num → num → num.
Variable parseConst : string → option num.
Variable kernel_value : list string → num.

Abbreviation values := (gmap string num).

(** [COMBINE] with its default coefficients and powers: the sum of the
    values named by its [ARGn=] words, in the order they are written. *)
Fixpoint combine (env : values) (acc : num) (args : list string)
  : option num :=
  match args with
  | [] => Some acc
  | w :: rest =>
      let '(k, v) := split_eq w in
      match strip_prefix "ARG" k with
      | Some _ => x ← env !! v; combine env (add acc x) rest
      | None => combine env acc rest
      end
  end.

(** [MATHEVAL] for the two functions the expansion writes: [x+c] with [x]
    the value of [ARG1] and [c] a constant, and [x/y] with [y] the value of
    [ARG2]. *)
Definition matheval (env : values) (args : list string) : option num :=
  func ← keyword "FUNC" args;
  x ← keyword "ARG1" args ≫= (env !!.);
  if decide (func = "x/y") then
    y ← keyword "ARG2" args ≫= (env !!.);
    Some (div x y)
  else
    c ← strip_prefix "x+" func;
    e ← parseConst c;
    Some (add x e).

(** Modelled from the spec: the actions KERNEL, COMBINE and MATHEVAL are
    implemented outside the sources at hand. Following section 4.3 of the
    spec, a KERNEL action has the value of its kernel at the evaluation
    point, COMBINE adds up the values of its arguments, and MATHEVAL
    evaluates [x+c] or [x/y] on its arguments. An action of any other kind,
    or one whose arguments have no value, publishes nothing. *)
Definition value_of (env : values) (a : action) : option (string * num) :=
  match a with
  | lbl :: name :: args =>
      l ← strip_colon lbl;
      v ← (if decide (name = "KERNEL") then Some (kernel_value args)
           else if decide (name = "COMBINE") then combine env zero args
           else if decide (name = "MATHEVAL") then matheval env args
           else None);
      Some (l, v)
  | _ => None
  end.

(** The label an action publishes its value under. *)
Definition label_of (a : action) : option string :=
  match a with
  | lbl :: _ => strip_colon lbl
  | [] => None
  end.

Definition exec (env : values) (a : action) : values :=
  match value_of env a with
  | Some (l, v) => <[l := v]> env
  | None => env
  end.

(** The actions are executed in the order of the vector. *)
Definition run_actions (env : values) (actions : list action) : values :=
  foldl exec env actions.

End Semantics.

(** The labels of the actions that [expandFunctions] appends extend the
    label it is given: [labout_lt], [labout_mean], ... *)
Definition extends_labout
    (expandFunctions :
       string → string → string → list string → keymap → list action) : Prop :=
  ∀ labout argin weights words keys a l,
    a ∈ expandFunctions labout argin weights words keys →
    label_of a = Some l → ∃ s, l = labout +:+ "_" +:+ s.

(** ** Exact arithmetic *)

Definition digit_of (c : ascii) : option N :=
  let n := N_of_ascii c in
  if (48 <=? n) && (n <=? 57) then Some (n - 48) else None.

Fixpoint parse_digits (acc : N) (s : string) : option N :=
  match s with
  | "" => Some acc
  | String c s' => d ← digit_of c; parse_digits (10 * acc + d) s'
  end.

Fixpoint split_dot (s : string) : string * string :=
  match s with
  | "" => ("", "")
  | String c s' =>
      if decide (c = "."%char) then ("", s')
      else let '(i, f) := split_dot s' in (String c i, f)
  end.

(** Modelled from the spec: the expression parser behind MATHEVAL is not part
    of the sources at hand; a decimal constant such as [0.001] denotes its
    exact value. *)
Definition parseDecimal (s : string) : option Q :=
  let '(ip, fp) := split_dot s in
  if decide (ip = "") then None else
  i ← parse_digits 0 ip;
  f ← parse_digits 0 fp;
  Some (Qplus (Z.of_N i # 1)
          (Z.of_N f # Pos.pow 10 (Pos.of_succ_nat (String.length fp) - 1))).

Fixpoint chars_all (P : ascii → bool) (s : string) : bool :=
  match s with
  | "" => true
  | String c s' => P c && chars_all P s'
  end.

(** The decimal digits. *)
Definition is_digit (c : ascii) : bool := bool_decide (is_Some (digit_of c)).

(** The expanded actions over the rationals. *)
Definition run_Q (kernel_value : list string → Q)
  : gmap string Q → list action → gmap string Q :=
  run_actions 0%Q Qplus Qdiv parseDecimal kernel_value.

(** A sum in the order [COMBINE] adds. *)
Definition Qsum (l : list Q) : Q := foldl Qplus 0%Q l.

(** The published responsibilities of the kernels [1..n], if all of them
    have a value. *)
Definition responsibilities (env : gmap string Q) (lab : string) (n : N)
  : option (list Q) :=
  mapM (λ k, env !! output_label lab (k + 1)) (uint_range n).

(** ** The clustering base class *)

(** What the class uses of a [Value]: its shape. *)
Record Value := { getShape : list N }.

(** [ClusteringBase]: the arguments inherited from
    [ActionWithInputMatrices] and the three data members of lines 33-38. *)
Record ClusteringBase := {
  arguments : list Value;
  cluster_sizes : list (N * N);
  number_of_cluster : Z;
  which_cluster : list N;
}.

(** [getPntrToArgument(i)]: indexes the vector of arguments. *)
Definition getPntrToArgument (c : ClusteringBase) (i : nat) : outcome Value :=
  match arguments c !! i with
  | Some v => Ok v
  | None => Undefined
  end.

(** [ClusteringBase::getNumberOfNodes], lines 57-60. *)
Definition getNumberOfNodes (c : ClusteringBase) : outcome N :=
  v ←! getPntrToArgument c 0;
  match getShape v !! 0%nat with
  | Some n => Ok n
  | None => Undefined
  end.

(** [ClusteringBase::getForceOnMatrixElement], line 54; the rationals stand
    for the [double] it never returns. *)
Definition getForceOnMatrixElement (c : ClusteringBase) (imat jrow krow : N)
  : outcome Q :=
  plumed_error.

(** Modelled from the spec: the body of [ClusteringBase::apply] is not part
    of the sources at hand, which only declare it under the comment "Cannot
    apply forces on a clustering object". Following section 4.5 of the spec,
    an attempt to send a force through the clustering fails at once; a step
    on which no force was added has nothing to apply. *)
Definition apply (c : ClusteringBase) (forcesWereAdded : bool) : outcome unit :=
  if forcesWereAdded then plumed_error else Ok ().

Module Clustering.

(** Modelled from the spec: the neighbour list of section 4.4, one list of
    neighbour indices per node ([retrieveAdjacencyLists] is declared in the
    header and defined elsewhere). *)
Definition NeighborList := list (list nat).

Definition neighbours (nl : NeighborList) (i : nat) : list nat :=
  default [] (nl !! i).

(** Modelled from the spec: the traversal of section 4.5. The nodes still
    to look at are kept on a stack; a node that was not visited before is
    marked, given the cluster id [id], and its neighbours are pushed. *)
Fixpoint traverse (fuel : nat) (nl : NeighborList) (id : N)
    (stack : list nat) (visited : list bool) (which : list N)
  : outcome (list bool * list N) :=
  match fuel with
  | O => OutOfFuel
  | S fuel' =>
      match stack with
      | [] => Ok (visited, which)
      | x :: rest =>
          match visited !! x with
          | Some false =>
              traverse fuel' nl id (neighbours nl x ++ rest)
                (<[x := true]> visited) (<[x := id]> which)
          | _ => traverse fuel' nl id rest visited which
          end
      end
  end.

(** Modelled from the spec: the loop of section 4.5 over the nodes in index
    order; every node that is still unvisited starts a new cluster, and ids
    are given in the order of discovery, from 0. [count] is the number of
    clusters found so far. *)
Fixpoint components (fuel : nat) (nl : NeighborList) (nodes : list nat)
    (count : N) (visited : list bool) (which : list N)
  : outcome (N * list bool * list N) :=
  match nodes with
  | [] => Ok (count, visited, which)
  | i :: rest =>
      match visited !! i with
      | Some false =>
          '(visited, which) ←! traverse fuel nl count [i] visited which;
          components fuel nl rest (count + 1) visited which
      | _ => components fuel nl rest count visited which
      end
  end.

(** The number of nodes that carry the cluster id [c]. *)
Definition members (which : list N) (c : N) : N :=
  N.of_nat (length (filter (λ w, w = c) which)).

(** Modelled from the spec: [performClustering] is pure virtual in the
    header and [completeMatrixOperations] is defined elsewhere. Following
    section 4.5 of the spec: the assignment is computed from scratch by the
    connected-components strategy, the sizes are then computed by counting
    membership (stored with their id as in [cluster_sizes]), and
    [number_of_cluster] records the number of clusters. *)
Definition cluster (fuel : nat) (nl : NeighborList) (c : ClusteringBase)
  : outcome ClusteringBase :=
  let n := length nl in
  '(count, _, which) ←!
    components fuel nl (seq 0 n) 0 (replicate n false) (replicate n 0);
  Ok {| arguments := arguments c;
        cluster_sizes := (λ id, (members which id, id)) <$> uint_range count;
        number_of_cluster := Z.of_N count;
        which_cluster := which |}.

(** Fuel that is enough for any traversal over [nl]: one step per node,
    one per stored neighbour, and the two steps that start and end a
    traversal. *)
Definition enough_fuel (nl : NeighborList) : nat :=
  2 + length nl + sum_list (length <$> nl).

Definition sumN (l : list N) : N := foldr N.add 0 l.

(** The sum of the recorded cluster sizes. *)
Definition total_size (c : ClusteringBase) : N :=
  sumN (fst <$> cluster_sizes c).

(** Every visited node carries a cluster id below [b]. *)
Definition assigned (b : N) (visited : list bool) (which : list N) : Prop :=
  length visited = length which
  ∧ ∀ i, visited !! i = Some true → ∃ c, which !! i = Some c ∧ c < b.

(** What a traversal still has to pay for: every unvisited node (from
    index [i] on) and its neighbours. *)
Fixpoint cost_from (nl : NeighborList) (i : nat) (visited : list bool)
  : nat :=
  match visited with
  | [] => 0
  | b :: rest =>
      (if b then 0 else 1 + length (neighbours nl i))
      + cost_from nl (S i) rest
  end.

End Clustering.

(** ** The example of the manual

    [p: PAMM DATA=phi,psi CLUSTERS=clusters.dat] with a file of two
    kernels. *)
Module Manual.

Definition parse (r : string) (valnames : list string)
  : option KernelFunctions :=
  if decide (r = "") then None else Some {| getInputString := r |}.

Definition no_functions (labout argin weights : string)
    (words : list string) (keys : keymap) : list action := [].

(** One function per output, as a [MEAN] keyword would ask for. *)
Definition mean_function (labout argin weights : string)
    (words : list string) (keys : keymap) : list action :=
  match keys !! "MEAN" with
  | Some _ => [[labout +:+ "_mean:"; "MEAN"; "ARG=" +:+ argin]]
  | None => []
  end.

Definition files : gmap string (list string) :=
  {[ "clusters.dat" := ["k1"; "k2"] ]}.

Definition supplied : keymap :=
  {[ "DATA" := "phi,psi"; "CLUSTERS" := "clusters.dat" ]}.

Definition keys : keymap := readKeywords (shortcutKeywords [] []) supplied.

Definition words : list string :=
  ["PAMM"; "DATA=phi,psi"; "CLUSTERS=clusters.dat"].

Definition kernels : list KernelFunctions :=
  [{| getInputString := "k1" |}; {| getInputString := "k2" |}].

Definition expanded : outcome (list action) :=
  expandShortcut parse no_functions files 3 "p" words keys [].

(** Kernel values at a point near the first centre. *)
Definition near_first (args : list string) : Q :=
  if decide (keyword "KERNEL" args = Some "k1") then 3 # 4 else 1 # 4.

(** Kernel values at a point far from every centre. *)
Definition far_away (args : list string) : Q := 0.

(** Four nodes, all connected, and four nodes without any edge. *)
Definition connected : Clustering.NeighborList :=
  [[1; 2; 3]; [0; 2; 3]; [0; 1; 3]; [0; 1; 2]]%nat.
Definition isolated : Clustering.NeighborList := [[]; []; []; []].

Definition fresh : ClusteringBase :=
  {| arguments := [{| getShape := [4; 4] |}]; cluster_sizes := [];
     number_of_cluster := (-1)%Z; which_cluster := [] |}.

End Manual.


(** ** Rounded arithmetic *)

(** The numbers of a floating-point format: the finite ones by their exact
    value, the two infinities, and not-a-number. The sign of a zero is not
    kept. *)
Inductive xnum : Type :=
| Fin (q : Q)
| PInf
| NInf
| NaN.

(** The order of the format; not-a-number compares with nothing. *)
Definition xle (a b : xnum) : Prop :=
  match a, b with
  | NaN, _ | _, NaN => False
  | NInf, _ => True
  | _, PInf => True
  | Fin x, Fin y => (x <= y)%Q
  | _, _ => False
  end.

(** Zero or above, and not not-a-number. *)
Definition nonnegative (a : xnum) : Prop :=
  match a with
  | Fin x => (0 <= x)%Q
  | PInf => True
  | _ => False
  end.

(** Above zero, and not not-a-number. *)
Definition positive_number (a : xnum) : Prop :=
  match a with
  | Fin x => (0 < x)%Q
  | PInf => True
  | _ => False
  end.

Section Rounded.

(** The rounding of the format: the number that stands for an exact result,
    an infinity when the result is out of range. *)
Variable rnd : Q → xnum.

(** A rational that is a number of the format. *)
Definition machine (x : Q) : Prop := ∃ y, rnd x = Fin y ∧ (y == x)%Q.

(** What every rounding mode of IEEE 754 has: it keeps the order, it leaves
    0 and 1 alone, and what it returns is a number of the format. *)
Record rounding : Prop := {
  rnd_monotone : ∀ x y, (x <= y)%Q → xle (rnd x) (rnd y);
  rnd_0 : machine 0;
  rnd_1 : machine 1;
  rnd_machine : ∀ x y, rnd x = Fin y → machine y;
}.

(** Addition: the exact sum, rounded. *)
Definition xadd (a b : xnum) : xnum :=
  match a, b with
  | NaN, _ | _, NaN => NaN
  | PInf, NInf | NInf, PInf => NaN
  | PInf, _ | _, PInf => PInf
  | NInf, _ | _, NInf => NInf
  | Fin x, Fin y => rnd (x + y)
  end.

(** Division: the exact quotient, rounded; a finite number over an infinity
    is 0, a number over 0 is an infinity, and 0 over 0 or an infinity over an
    infinity is not-a-number. *)
Definition xdiv (a b : xnum) : xnum :=
  match a, b with
  | NaN, _ | _, NaN => NaN
  | Fin x, Fin y =>
      if Qeq_bool y 0 then
        if Qeq_bool x 0 then NaN else if Qle_bool 0 x then PInf else NInf
      else rnd (x / y)
  | Fin _, _ => Fin 0
  | PInf, Fin y => if Qle_bool 0 y then PInf else NInf
  | NInf, Fin y => if Qle_bool 0 y then NInf else PInf
  | _, _ => NaN
  end.

(** The expanded actions in the arithmetic of the format: every sum and
    every quotient is rounded, and so is the constant of [x+c]. *)
Definition run_rounded (kernel_value : list string → xnum)
  : gmap string xnum → list action → gmap string xnum :=
  run_actions (Fin 0) xadd xdiv (λ s, rnd <$> parseDecimal s) kernel_value.

(** A sum or a kernel value on the way to the denominator: not below zero
    and, if finite, a number of the format. *)
Definition summand (a : xnum) : Prop :=
  match a with
  | Fin x => (0 <= x)%Q ∧ machine x
  | PInf => True
  | _ => False
  end.

End Rounded.

(** ** IEEE 754 binary64 *)

Module Double.

Abbreviation double := SpecFloat.spec_float.

Definition add : double → double → double := SpecFloat.SFadd 53 1024.
Definition div : double → double → double := SpecFloat.SFdiv 53 1024.
Definition zero : double := SpecFloat.S754_zero false.

(** The double nearest to a rational. *)
Definition of_Q (q : Q) : double :=
  match Qnum q with
  | Z0 => zero
  | Zpos n =>
      div (SpecFloat.S754_finite false n 0)
        (SpecFloat.S754_finite false (Qden q) 0)
  | Zneg n =>
      div (SpecFloat.S754_finite true n 0)
        (SpecFloat.S754_finite false (Qden q) 0)
  end.

(** The exact value of a finite double. *)
Definition to_Q (x : double) : option Q :=
  match x with
  | SpecFloat.S754_zero _ => Some 0%Q
  | SpecFloat.S754_finite s m e =>
      let z := if s then Z.neg m else Z.pos m in
      Some match e with
           | Z0 => inject_Z z
           | Zpos p => inject_Z (z * 2 ^ Z.pos p)
           | Zneg p => (z # 2 ^ p)%Q
           end
  | _ => None
  end.

(** The expanded actions in binary64, rounding to nearest. *)
Definition run (kernel_value : list string → double)
  : gmap string double → list action → gmap string double :=
  run_actions zero add div (λ s, of_Q <$> parseDecimal s) kernel_value.

(** The exact values of the responsibilities of the kernels [1..n]. *)
Definition responsibilities (env : gmap string double) (lab : string) (n : N)
  : option (list Q) :=
  mapM (λ k, env !! output_label lab (k + 1) ≫= to_Q) (uint_range n).

(** Four kernels that evaluate to 2, 4, 3 and 1. *)
Definition files : gmap string (list string) :=
  {[ "clusters.dat" := ["2"; "4"; "3"; "1"] ]}.

Definition kernel_value (args : list string) : double :=
  match keyword "KERNEL" args ≫= parseDecimal with
  | Some q => of_Q q
  | None => zero
  end.

(** The options of the manual's example with REGULARISE set. *)
Definition keys (regularise : string) : keymap :=
  <["REGULARISE" := regularise]> Manual.keys.

(** The smallest positive double. *)
Definition smallest : double := SpecFloat.S754_finite false 1 (-1074).

End Double.

(** ** The rest of the class *)

Section RegisterKeywords.

(** [ActionSetup::registerKeywords(keys)] (core/ActionSetup.h is not part of
    the sources at hand). *)
Variable ActionSetup_registerKeywords : Keywords → Keywords.

(** [PAMM::registerKeywords], lines 181-183. *)
Definition registerKeywords (keys : Keywords) : Keywords :=
  ActionSetup_registerKeywords keys.

End RegisterKeywords.

(** The labels of a vector of actions, in its order. *)
Definition labels_of (actions : list action) : list string :=
  omap label_of actions.

(** A label of a responsibility, as it is or extended by [_...]. *)
Definition from_output (lab : string) (k : N) (x : string) : Prop :=
  x = output_label lab k ∨ ∃ s, x = output_label lab k +:+ "_" +:+ s.

Section Diagnosis.

Variable parseRecord : string → list string → option KernelFunctions.
Variable files : gmap string (list string).

(** An input the expansion gets through, whatever the number of records. *)
Record readable (words : list string) (keys : keymap) (data regularise : string)
    (rs : list string) (kks : list KernelFunctions) : Prop := {
  rd_directive : words_0 words = Ok "PAMM";
  rd_data : keys !! "DATA" = Some data;
  rd_file : ∃ fname, keys !! "CLUSTERS" = Some fname ∧ files !! fname = Some rs;
  rd_regularise : keys !! "REGULARISE" = Some regularise;
  rd_records :
    Forall2 (λ r kk, parseRecord r (getWords data data_separators) = Some kk)
      rs kks;
}.

(** The kernel file the keywords name can be opened. *)
Definition opens (keys : keymap) (rs : list string) : Prop :=
  ∃ fname, keys !! "CLUSTERS" = Some fname ∧ files !! fname = Some rs.

(** Every record of [rs] is one the reader accepts for the names of [data]. *)
Definition all_read (data : string) (rs : list string) : Prop :=
  Forall (λ r, is_Some (parseRecord r (getWords data data_separators))) rs.

(** The fuel covers one read per record of the file the keywords name, and
    the last read. *)
Definition fuel_covers (fuel : nat) (keys : keymap) : Prop :=
  ∀ rs, opens keys rs → (length rs < fuel)%nat.

(** An outcome without its value. *)
Definition forget {A} (x : outcome A) : outcome unit :=
  match x with
  | Ok _ => Ok ()
  | PlumedError => PlumedError
  | Undefined => Undefined
  | OutOfFuel => OutOfFuel
  end.

(** The checks of [expandShortcut] in the order the code makes them, without
    the loop: the first one that fails decides the outcome. *)
Definition diagnose (words : list string) (keys : keymap) : outcome unit :=
  match words with
  | [] => Undefined
  | w :: _ =>
      if decide (w = "PAMM") then
        match keys !! "DATA" with
        | None => Undefined
        | Some data =>
            match keys !! "CLUSTERS" with
            | None => Undefined
            | Some fname =>
                match files !! fname with
                | None => PlumedError
                | Some rs =>
                    if decide (Forall (λ r, is_Some (parseRecord r
                                 (getWords data data_separators))) rs)
                    then match keys !! "REGULARISE" with
                         | None => Undefined
                         | Some _ => Ok ()
                         end
                    else PlumedError
                end
            end
        end
      else PlumedError
  end.

End Diagnosis.
(** * Properties *)

(** ** The clustering base class *)

(** C4: for every clustering object and all indices, asking for the force on
    a matrix element raises the fatal error and returns no value (so never a
    silent zero), and so does applying forces once a force was added. *)
Theorem force_through_clustering_is_fatal
    (c : ClusteringBase) (imat jrow krow : N) :
  getForceOnMatrixElement c imat jrow krow = PlumedError
  ∧ (∀ v : Q, getForceOnMatrixElement c imat jrow krow ≠ Ok v)
  ∧ apply c true = PlumedError.
Proof. repeat split. intros v. discriminate. Qed.

(** C10: the number of nodes of a clustering object is the first entry of the
    shape of its first argument, and nothing else: the call returns [n]
    exactly when argument 0 exists and its shape starts with [n]. *)
Theorem getNumberOfNodes_is_row_count (c : ClusteringBase) (n : N) :
  getNumberOfNodes c = Ok n
  ↔ ∃ v, arguments c !! 0%nat = Some v ∧ getShape v !! 0%nat = Some n.
Proof.
  unfold getNumberOfNodes, getPntrToArgument. split.
  - destruct (arguments c !! 0%nat) as [v|] eqn:Hv; simpl; [|discriminate].
    destruct (getShape v !! 0%nat) as [m|] eqn:Hm; [|discriminate].
    intros [= ->]. eauto.
  - intros (v & -> & Hn). simpl. by rewrite Hn.
Qed.

Example getNumberOfNodes_matrix (rows cols : N) (rest : list Value) :
  getNumberOfNodes
    {| arguments := {| getShape := [rows; cols] |} :: rest;
       cluster_sizes := []; number_of_cluster := (-1)%Z;
       which_cluster := [] |} = Ok rows.
Proof. reflexivity. Qed.

Example getNumberOfNodes_no_argument :
  getNumberOfNodes
    {| arguments := []; cluster_sizes := []; number_of_cluster := (-1)%Z;
       which_cluster := [] |} = Undefined.
Proof. reflexivity. Qed.

(** ** The constructor *)

Lemma PAMM_never_Ok (A S : Type) (actor : ActionOptions → outcome A)
    (sctor : ActionOptions → outcome S) (ao : ActionOptions) :
  is_Ok (PAMM A S actor sctor ao) = false.
Proof.
  unfold PAMM. destruct (actor ao); simpl; try done.
  destruct (sctor ao); done.
Qed.

(** ** Strings *)

Lemma app_cons (a : ascii) (s t : string) :
  String a s +:+ t = String a (s +:+ t).
Proof. reflexivity. Qed.

Lemma app_empty (t : string) : "" +:+ t = t.
Proof. reflexivity. Qed.

Lemma app_assoc' (s t u : string) : (s +:+ t) +:+ u = s +:+ t +:+ u.
Proof. induction s as [|a s IH]; [done|]. rewrite !app_cons. by f_equal. Qed.


Lemma chars_all_app (P : ascii → bool) (s t : string) :
  chars_all P (s +:+ t) = chars_all P s && chars_all P t.
Proof.
  induction s as [|a s IH]; [done|].
  rewrite app_cons. simpl. rewrite IH. by rewrite andb_assoc.
Qed.

Lemma chars_all_impl (P R : ascii → bool) (s : string) :
  (∀ c, P c = true → R c = true) → chars_all P s = true → chars_all R s = true.
Proof.
  intros HPR. induction s as [|a s IH]; [done|]. simpl.
  intros [Ha Hs]%andb_true_iff. apply andb_true_iff. auto.
Qed.

Lemma pretty_N_char_digit (x : N) : is_digit (pretty_N_char x) = true.
Proof.
  unfold pretty_N_char.
  repeat (match goal with |- context [match ?y with _ => _ end] =>
            destruct y end; try reflexivity).
Qed.

Lemma pretty_N_go_digits (x : N) (s : string) :
  chars_all is_digit s = true → chars_all is_digit (pretty_N_go x s) = true.
Proof.
  revert s. induction (N.lt_wf_0 x) as [x _ IH]; intros s Hs.
  assert (x = 0 ∨ 0 < x) as [->|Hx] by lia.
  - by rewrite pretty_N_go_0.
  - rewrite pretty_N_go_step by done. apply IH.
    + by apply N.div_lt.
    + simpl. by rewrite pretty_N_char_digit.
Qed.

Lemma convert_digits (n : N) : chars_all is_digit (convert n) = true.
Proof.
  unfold convert, pretty, pretty_N. case_decide; [done|].
  by apply pretty_N_go_digits.
Qed.

Lemma convert_inj (m n : N) : convert m = convert n → m = n.
Proof. apply pretty_N_inj. Qed.

(** Two texts made of a number, a character that is no digit and a rest are
    equal only if the three parts are. *)
Lemma digits_then_mark (d1 d2 : string) (c1 c2 : ascii) (s1 s2 : string) :
  chars_all is_digit d1 = true → chars_all is_digit d2 = true →
  is_digit c1 = false → is_digit c2 = false →
  d1 +:+ String c1 s1 = d2 +:+ String c2 s2 →
  d1 = d2 ∧ c1 = c2 ∧ s1 = s2.
Proof.
  revert d2. induction d1 as [|a d1 IH]; intros [|b d2]; simpl;
    rewrite ?app_cons, ?app_empty.
  - intros _ _ _ _ [= -> ->]. done.
  - intros _ [Hb _]%andb_true_iff Hc1 _ [= -> _]. congruence.
  - intros [Ha _]%andb_true_iff _ _ Hc2 [= -> _]. congruence.
  - intros [_ H1]%andb_true_iff [_ H2]%andb_true_iff Hc1 Hc2 [= -> Heq].
    destruct (IH d2 H1 H2 Hc1 Hc2 Heq) as (-> & -> & ->). done.
Qed.

Lemma strip_colon_app (s : string) : strip_colon (s +:+ ":") = Some s.
Proof.
  induction s as [|a s IH]; [done|].
  rewrite app_cons. simpl. rewrite IH.
  destruct (s +:+ ":") eqn:E; [|done].
  destruct s; discriminate.
Qed.

Lemma split_eq_app (k v : string) :
  chars_all (λ c, bool_decide (c ≠ "="%char)) k = true →
  split_eq (k +:+ "=" +:+ v) = (k, v).
Proof.
  induction k as [|a k IH]; [done|].
  cbn [chars_all]. intros [Ha Hk]%andb_true_iff.
  rewrite app_cons. cbn [split_eq].
  apply bool_decide_eq_true in Ha. rewrite decide_False by done.
  by rewrite IH.
Qed.

Lemma digit_not_eq_sign (c : ascii) :
  is_digit c = true → bool_decide (c ≠ "="%char) = true.
Proof.
  intros H. apply bool_decide_eq_true. intros ->. discriminate.
Qed.

Lemma split_eq_ARG (n : N) (v : string) :
  split_eq ("ARG" +:+ convert n +:+ "=" +:+ v) = ("ARG" +:+ convert n, v).
Proof.
  rewrite <-app_assoc'. apply split_eq_app.
  rewrite chars_all_app. apply andb_true_iff. split; [done|].
  eapply chars_all_impl; [apply digit_not_eq_sign|apply convert_digits].
Qed.

Lemma strip_prefix_app (p s : string) : strip_prefix p (p +:+ s) = Some s.
Proof.
  induction p as [|a p IH]; [by destruct s|].
  rewrite app_cons. simpl. by rewrite decide_True.
Qed.

(** ** The expansion in closed form *)

Lemma u32_small (n : N) : n < 2 ^ 32 → u32 n = n.
Proof. apply N.mod_small. Qed.

Lemma elem_of_uint_range (n k : N) : k ∈ uint_range n ↔ k < n.
Proof.
  unfold uint_range. rewrite list_elem_of_fmap. split.
  - intros (i & -> & Hi%elem_of_seq). lia.
  - intros Hk. exists (N.to_nat k). split; [lia|]. apply elem_of_seq. lia.
Qed.

Lemma uint_range_succ (n : N) : uint_range (n + 1) = uint_range n ++ [n].
Proof.
  unfold uint_range. replace (N.to_nat (n + 1)) with (N.to_nat n + 1)%nat by lia.
  rewrite seq_app, fmap_app. simpl. by rewrite N2Nat.id.
Qed.

Section ExpansionFacts.

Variable parseRecord : string → list string → option KernelFunctions.
Variable expandFunctions :
  string → string → string → list string → keymap → list action.
Variable files : gmap string (list string).


Lemma kernel_loop_reads_all (lab : string) (valnames : list string)
    (rs : list string) (kks : list KernelFunctions) :
  Forall2 (λ r kk, parseRecord r valnames = Some kk) rs kks →
  ∀ (fuel : nat) (k nkernels : N) (actions : list action),
    (length rs < fuel)%nat →
    k + N.of_nat (length rs) < 2 ^ 32 →
    nkernels + N.of_nat (length rs) < 2 ^ 32 →
    kernel_loop parseRecord fuel lab valnames k {| records := rs |} actions
      nkernels
    = Ok ({| records := [] |},
          actions ++ kernel_actions lab valnames k kks,
          nkernels + N.of_nat (length rs)).
Proof.
  induction 1 as [|r kk rs kks Hr _ IH]; intros fuel k nkernels actions Hf Hk Hn.
  - destruct fuel; [simpl in Hf; lia|]. simpl.
    by rewrite app_nil_r, N.add_0_r.
  - destruct fuel; [simpl in Hf; lia|].
    cbn [kernel_loop]. unfold KernelFunctions_read. cbn [records].
    rewrite Hr. cbn [obind]. unfold scanField. cbn [records tail].
    simpl length in *.
    rewrite !u32_small by lia.
    rewrite IH by lia.
    cbn [kernel_actions]. rewrite <-app_assoc. simpl.
    do 2 f_equal. lia.
Qed.

Lemma cinput_closed (lab : string) (n : N) :
  n < 2 ^ 32 → cinput lab n = ksum_action lab n.
Proof.
  intros Hn. unfold cinput, ksum_action. do 2 f_equal.
  apply list_fmap_ext. intros i k Hk%list_elem_of_lookup_2%elem_of_uint_range.
  cbn zeta. by rewrite u32_small by lia.
Qed.

Lemma responsibility_loop_closed (lab : string) (words : list string)
    (keys : keymap) (ks : list N) (actions : list action) :
  Forall (λ k, k + 1 < 2 ^ 32) ks →
  foldl (responsibility_step expandFunctions lab words keys) actions ks
  = actions ++ concat (responsibility_block expandFunctions lab words keys <$> ks).
Proof.
  intros Hks. revert actions.
  induction Hks as [|k ks Hk _ IH]; intros actions; simpl.
  - by rewrite app_nil_r.
  - rewrite IH. unfold responsibility_step at 1. cbn zeta.
    rewrite u32_small by done. unfold responsibility_block at 2.
    by rewrite <-!app_assoc.
Qed.

Lemma expandShortcut_closed (fuel : nat) (lab : string) (words : list string)
    (keys : keymap) (actions : list action) (data regularise : string)
    (rs : list string) (kks : list KernelFunctions) :
  accepted parseRecord files words keys data regularise rs kks →
  (length rs < fuel)%nat →
  expandShortcut parseRecord expandFunctions files fuel lab words keys actions
  = Ok (actions
          ++ kernel_actions lab (getWords data data_separators) 0 kks
          ++ [ksum_action lab (N.of_nat (length rs)); minput lab regularise]
          ++ responsibility_actions expandFunctions lab words keys (N.of_nat (length rs))).
Proof.
  intros [Hw Hd (fname & Hc & Hfile) Hreg Hrs Hn] Hfuel.
  unfold expandShortcut. rewrite Hw. cbn [obind].
  unfold find_second. rewrite Hd, Hc. cbn [obind].
  rewrite bool_decide_eq_true_2 by done. cbn [plumed_assert obind].
  unfold IFile_open. rewrite Hfile. cbn [obind].
  rewrite (kernel_loop_reads_all _ _ _ _ Hrs) by (rewrite ?N.add_0_l; done).
  cbn [obind]. rewrite N.add_0_l, Hreg. cbn [obind].
  rewrite cinput_closed by done.
  rewrite responsibility_loop_closed.
  - unfold responsibility_actions. rewrite <-!app_assoc. done.
  - apply Forall_forall. intros k Hk%elem_of_uint_range. lia.
Qed.

End ExpansionFacts.

(** ** Labels *)

Lemma label_of_kinput (lab : string) (valnames : list string) (k : N)
    (kk : KernelFunctions) :
  kinput lab valnames (convert k) kk
  = (kernel_label lab k +:+ ":") :: "KERNEL" :: kernel_words valnames kk.
Proof.
  unfold kinput, kernel_label, kernel_words. by rewrite !app_assoc'.
Qed.

Lemma label_of_finput (lab : string) (k : N) :
  finput lab (convert k)
  = [output_label lab k +:+ ":"; "MATHEVAL";
     "ARG1=" +:+ kernel_label lab k; "ARG2=" +:+ rksum_label lab;
     "FUNC=x/y"; "PERIODIC=NO"].
Proof. unfold finput, output_label. by rewrite !app_assoc'. Qed.

Lemma output_label_inj (lab : string) (j k : N) :
  output_label lab j = output_label lab k → j = k.
Proof.
  unfold output_label. intros H%(inj (String.app lab)).
  apply (inj (String.app "-")) in H. by apply convert_inj.
Qed.

Lemma kernel_label_inj (lab : string) (j k : N) :
  kernel_label lab j = kernel_label lab k → j = k.
Proof.
  unfold kernel_label. intros H%(inj (String.app lab)).
  apply (inj (String.app "_kernel-")) in H. by apply convert_inj.
Qed.

Lemma output_label_not_extended (lab : string) (j k : N) (s : string) :
  output_label lab j +:+ "_" +:+ s ≠ output_label lab k.
Proof.
  unfold output_label. rewrite !app_assoc'.
  intros H%(inj (String.app lab)). apply (inj (String.app "-")) in H.
  assert (chars_all is_digit (convert j +:+ "_" +:+ s) = true) as Hd
    by (rewrite H; apply convert_digits).
  rewrite chars_all_app in Hd. apply andb_true_iff in Hd as [_ Hd].
  discriminate Hd.
Qed.

(** The labels of the responsibilities, extended or not, are neither those of
    the kernels nor those of the two sums. *)
Lemma output_label_not_kernel (lab : string) (j k : N) (s : string) :
  output_label lab j +:+ s ≠ kernel_label lab k.
Proof.
  unfold output_label, kernel_label. rewrite !app_assoc'.
  intros H%(inj (String.app lab)). discriminate H.
Qed.

Lemma output_label_not_rksum (lab : string) (j : N) (s : string) :
  output_label lab j +:+ s ≠ rksum_label lab.
Proof.
  unfold output_label, rksum_label. rewrite !app_assoc'.
  intros H%(inj (String.app lab)). discriminate H.
Qed.

Lemma output_label_not_ksum (lab : string) (j : N) (s : string) :
  output_label lab j +:+ s ≠ ksum_label lab.
Proof.
  unfold output_label, ksum_label. rewrite !app_assoc'.
  intros H%(inj (String.app lab)). discriminate H.
Qed.

Lemma kernel_label_not_sums (lab : string) (k : N) :
  kernel_label lab k ≠ ksum_label lab ∧ kernel_label lab k ≠ rksum_label lab
  ∧ ksum_label lab ≠ rksum_label lab.
Proof.
  unfold kernel_label, ksum_label, rksum_label.
  repeat split; intros H%(inj (String.app lab)); discriminate H.
Qed.

Lemma label_of_ksum_action (lab : string) (n : N) :
  ksum_action lab n
  = (ksum_label lab +:+ ":") :: "COMBINE"
      :: ((λ k, "ARG" +:+ convert (k + 1) +:+ "=" +:+ lab +:+ "_kernel-"
                  +:+ convert (k + 1)) <$> uint_range n)
      ++ ["PERIODIC=NO"].
Proof. unfold ksum_action, ksum_label. by rewrite !app_assoc'. Qed.

Lemma label_of_minput (lab regularise : string) :
  minput lab regularise
  = [rksum_label lab +:+ ":"; "MATHEVAL"; "ARG1=" +:+ ksum_label lab;
     "FUNC=x+" +:+ regularise; "PERIODIC=NO"].
Proof. unfold minput, rksum_label. by rewrite !app_assoc'. Qed.

Lemma app_empty_r (s : string) : s +:+ "" = s.
Proof. induction s as [|a s IH]; [done|]. rewrite app_cons. by f_equal. Qed.

(** ** What the expanded actions compute *)

Section SemanticsFacts.

Context {num : Type}.
Variable zero : num.
Variables add div : num → num → num.
Variable parseConst : string → option num.
Variable kernel_value : list string → num.

Local Abbreviation exec' := (exec zero add div parseConst kernel_value).
Local Abbreviation run' := (run_actions zero add div parseConst kernel_value).
Local Abbreviation value_of' := (value_of zero add div parseConst kernel_value).

Lemma value_of_label (env : gmap string num) (a : action) (l : string) (v : num) :
  value_of' env a = Some (l, v) → label_of a = Some l.
Proof.
  destruct a as [|lbl [|name args]]; simpl; try done.
  destruct (strip_colon lbl) as [l'|]; simpl; [|done].
  destruct (if decide (name = "KERNEL") then _ else _); simpl; [|done].
  by intros [= -> _].
Qed.

Lemma exec_other (env : gmap string num) (a : action) (key : string) :
  label_of a ≠ Some key → exec' env a !! key = env !! key.
Proof.
  intros Hne. unfold exec.
  destruct (value_of' env a) as [[l v]|] eqn:Hv; [|done].
  apply value_of_label in Hv. rewrite lookup_insert_ne; congruence.
Qed.

Lemma run_other (acts : list action) (env : gmap string num) (key : string) :
  Forall (λ a, label_of a ≠ Some key) acts →
  run' env acts !! key = env !! key.
Proof.
  intros H. revert env. induction H as [|a acts Ha _ IH]; intros env; [done|].
  simpl. rewrite IH. by apply exec_other.
Qed.

Lemma run_app (env : gmap string num) (a b : list action) :
  run' env (a ++ b) = run' (run' env a) b.
Proof. apply foldl_app. Qed.

Lemma exec_kinput (env : gmap string num) (lab : string)
    (valnames : list string) (k : N) (kk : KernelFunctions) :
  exec' env (kinput lab valnames (convert k) kk)
  = <[kernel_label lab k := kernel_value (kernel_words valnames kk)]> env.
Proof.
  rewrite label_of_kinput. unfold exec, value_of.
  rewrite strip_colon_app. simpl. done.
Qed.

Lemma kernel_actions_labels (lab : string) (valnames : list string)
    (kks : list KernelFunctions) (k m : N) :
  m ≤ k →
  Forall (λ a, label_of a ≠ Some (kernel_label lab m))
    (kernel_actions lab valnames k kks).
Proof.
  revert k. induction kks as [|kk kks IH]; intros k Hk; simpl; [done|].
  constructor; [|apply IH; lia].
  rewrite label_of_kinput. cbn [label_of]. rewrite strip_colon_app.
  intros [= H%kernel_label_inj]. lia.
Qed.

(** After the [KERNEL] actions every kernel has its value. *)
Lemma run_kernel_actions (lab : string) (valnames : list string)
    (kks : list KernelFunctions) :
  ∀ (k : N) (env : gmap string num) (i : nat) (kk : KernelFunctions),
    kks !! i = Some kk →
    run' env (kernel_actions lab valnames k kks)
      !! kernel_label lab (k + N.of_nat i + 1)
    = Some (kernel_value (kernel_words valnames kk)).
Proof.
  induction kks as [|kk0 kks IH]; intros k env i kk Hi; [done|].
  cbn [kernel_actions]. unfold run_actions. cbn [foldl].
  fold (run' (exec' env (kinput lab valnames (convert (k + 1)) kk0))
          (kernel_actions lab valnames (k + 1) kks)).
  destruct i as [|i].
  - injection Hi as ->. rewrite run_other.
    + rewrite exec_kinput. replace (k + N.of_nat 0 + 1) with (k + 1) by lia.
      apply lookup_insert_eq.
    + replace (k + N.of_nat 0 + 1) with (k + 1) by lia.
      apply kernel_actions_labels. lia.
  - replace (k + N.of_nat (S i) + 1) with (k + 1 + N.of_nat i + 1) by lia.
    by apply IH.
Qed.

Lemma combine_kernels (lab : string) (env : gmap string num)
    (ks : list N) (vs : list num) :
  Forall2 (λ k v, env !! kernel_label lab (k + 1) = Some v) ks vs →
  ∀ acc,
    combine add env acc
      (((λ k, "ARG" +:+ convert (k + 1) +:+ "=" +:+ lab +:+ "_kernel-"
                +:+ convert (k + 1)) <$> ks) ++ ["PERIODIC=NO"])
    = Some (foldl add acc vs).
Proof.
  induction 1 as [|k v ks vs Hk _ IH]; intros acc.
  - reflexivity.
  - cbn [fmap list_fmap app combine foldl].
    rewrite split_eq_ARG, strip_prefix_app.
    fold (kernel_label lab (k + 1)). rewrite Hk. simpl. apply IH.
Qed.

Lemma exec_ksum (lab : string) (env : gmap string num) (n : N) (vs : list num) :
  Forall2 (λ k v, env !! kernel_label lab (k + 1) = Some v) (uint_range n) vs →
  exec' env (ksum_action lab n) = <[ksum_label lab := foldl add zero vs]> env.
Proof.
  intros H. rewrite label_of_ksum_action. unfold exec, value_of.
  rewrite strip_colon_app. simpl.
  by rewrite (combine_kernels _ _ _ _ H).
Qed.

Lemma exec_minput (lab regularise : string) (env : gmap string num)
    (s eps : num) :
  env !! ksum_label lab = Some s →
  parseConst regularise = Some eps →
  exec' env (minput lab regularise) = <[rksum_label lab := add s eps]> env.
Proof.
  intros Hs He. rewrite label_of_minput. unfold exec, value_of.
  rewrite strip_colon_app. simpl.
  unfold matheval.
  change (keyword "FUNC" _) with (Some ("x+" +:+ regularise)).
  change (keyword "ARG1" _) with (Some (ksum_label lab)).
  simpl. rewrite Hs. simpl. rewrite app_empty, He. done.
Qed.

Lemma exec_finput (lab : string) (k : N) (env : gmap string num) (v d : num) :
  env !! kernel_label lab k = Some v →
  env !! rksum_label lab = Some d →
  exec' env (finput lab (convert k)) = <[output_label lab k := div v d]> env.
Proof.
  intros Hv Hd. rewrite label_of_finput. unfold exec, value_of.
  rewrite strip_colon_app. simpl. unfold matheval.
  change (keyword "FUNC" _) with (Some "x/y").
  change (keyword "ARG1" _) with (Some (kernel_label lab k)).
  change (keyword "ARG2" _) with (Some (rksum_label lab)).
  simpl. rewrite Hv, Hd. done.
Qed.

End SemanticsFacts.

Section ChainFacts.

Context {num : Type}.
Variable zero : num.
Variables add div : num → num → num.
Variable parseConst : string → option num.
Variable kernel_value : list string → num.
Variable parseRecord : string → list string → option KernelFunctions.
Variable expandFunctions :
  string → string → string → list string → keymap → list action.
Variable files : gmap string (list string).
Hypothesis functions_fresh : extends_labout expandFunctions.

Local Abbreviation exec' := (exec zero add div parseConst kernel_value).
Local Abbreviation run' := (run_actions zero add div parseConst kernel_value).
Local Abbreviation block := (responsibility_block expandFunctions).

Lemma block_labels (lab : string) (words : list string) (keys : keymap)
    (j : N) (a : action) (l : string) :
  a ∈ block lab words keys j → label_of a = Some l →
  l = output_label lab (j + 1)
  ∨ ∃ s, l = output_label lab (j + 1) +:+ "_" +:+ s.
Proof.
  unfold responsibility_block. intros [->|Ha]%elem_of_cons Hl.
  - rewrite label_of_finput in Hl. cbn [label_of] in Hl.
    rewrite strip_colon_app in Hl. left. congruence.
  - right. by apply (functions_fresh _ _ _ _ _ _ _ Ha).
Qed.

(** A block leaves every value but its own responsibility and the
    functions of it alone. *)
Lemma run_block_other (env : gmap string num) (lab : string)
    (words : list string) (keys : keymap) (j : N) (key : string) :
  key ≠ output_label lab (j + 1) →
  (∀ s, key ≠ output_label lab (j + 1) +:+ "_" +:+ s) →
  run' env (block lab words keys j) !! key = env !! key.
Proof.
  intros H1 H2. apply run_other. apply Forall_forall. intros a Ha [= Hl].
  destruct (block_labels _ _ _ _ _ _ Ha Hl) as [->|[s ->]]; [done|].
  by apply (H2 s).
Qed.

Lemma run_blocks_other (env : gmap string num) (lab : string)
    (words : list string) (keys : keymap) (ks : list N) (key : string) :
  (∀ j, j ∈ ks → key ≠ output_label lab (j + 1)) →
  (∀ j s, key ≠ output_label lab (j + 1) +:+ "_" +:+ s) →
  run' env (concat (block lab words keys <$> ks)) !! key = env !! key.
Proof.
  revert env. induction ks as [|j ks IH]; intros env H1 H2; [done|].
  cbn [fmap list_fmap concat]. rewrite run_app, IH.
  - apply run_block_other; [apply H1; left|apply H2].
  - intros j' Hj'. apply H1. by right.
  - done.
Qed.

Lemma run_block_output (env : gmap string num) (lab : string)
    (words : list string) (keys : keymap) (j : N) (v d : num) :
  env !! kernel_label lab (j + 1) = Some v →
  env !! rksum_label lab = Some d →
  run' env (block lab words keys j) !! output_label lab (j + 1)
  = Some (div v d).
Proof.
  intros Hv Hd. unfold responsibility_block, run_actions. cbn [foldl].
  fold (run' (exec' env (finput lab (convert (j + 1))))
          (expandFunctions (lab +:+ "-" +:+ convert (j + 1))
             (lab +:+ "-" +:+ convert (j + 1)) "" words keys)).
  rewrite run_other.
  - rewrite (exec_finput _ _ _ _ _ _ _ _ _ _ Hv Hd). apply lookup_insert_eq.
  - apply Forall_forall. intros a Ha [= Hl].
    destruct (functions_fresh _ _ _ _ _ _ _ Ha Hl) as [s Hs].
    fold (output_label lab (j + 1)) in Hs.
    assert (String.length (output_label lab (j + 1))
            = String.length (output_label lab (j + 1) +:+ "_" +:+ s)) as Hlen
      by congruence.
    revert Hlen. generalize (output_label lab (j + 1)). clear.
    intros t. induction t as [|c t IH]; [discriminate|].
    rewrite app_cons. simpl. intros [= H]. auto.
Qed.

(** After the blocks of the kernels [ks] each of them has its
    responsibility: its value divided by the regularised sum. *)
Lemma run_blocks_output (lab : string) (words : list string) (keys : keymap)
    (d : num) (g : N → option num) (ks : list N) :
  ∀ env : gmap string num,
    env !! rksum_label lab = Some d →
    (∀ k v, g k = Some v → env !! kernel_label lab (k + 1) = Some v) →
    ∀ k v, k ∈ ks → g k = Some v →
      run' env (concat (block lab words keys <$> ks))
        !! output_label lab (k + 1) = Some (div v d).
Proof.
  induction ks as [|j ks IH]; intros env Hd Hg k v Hk Hv.
  { by apply elem_of_nil in Hk. }
  cbn [fmap list_fmap concat]. rewrite run_app.
  destruct (decide (k ∈ ks)) as [Hin|Hnotin].
  - apply IH; [| |done..].
    + rewrite run_block_other; [done|..];
        intros; apply not_eq_sym.
      * rewrite <-(app_empty_r (output_label lab (j + 1))).
        apply output_label_not_rksum.
      * apply (output_label_not_rksum lab (j + 1) ("_" +:+ s)).
    + intros k' v' Hk'. rewrite run_block_other; [by apply Hg|..];
        intros; apply not_eq_sym.
      * rewrite <-(app_empty_r (output_label lab (j + 1))).
        apply output_label_not_kernel.
      * apply (output_label_not_kernel lab (j + 1) (k' + 1) ("_" +:+ s)).
  - apply elem_of_cons in Hk as [->|Hk]; [|done].
    rewrite run_blocks_other.
    + apply run_block_output; [by apply Hg|done].
    + intros j' Hj' Heq%output_label_inj.
      assert (j = j') by lia. by subst.
    + intros j' s Heq.
      by apply (output_label_not_extended lab (j' + 1) (j + 1) s).
Qed.

Lemma uint_range_lookup (n : N) (i : nat) (k : N) :
  uint_range n !! i = Some k → k = N.of_nat i ∧ k < n.
Proof.
  unfold uint_range. rewrite list_lookup_fmap.
  destruct (seq 0 (N.to_nat n) !! i) as [j|] eqn:Hj; [|done].
  apply lookup_seq in Hj as [-> Hi]. intros [= <-]. lia.
Qed.

Lemma length_uint_range (n : N) : length (uint_range n) = N.to_nat n.
Proof. unfold uint_range. by rewrite length_fmap, length_seq. Qed.

(** The values of the whole chain, for an input the expansion accepts. *)
Lemma chain_values (fuel : nat) (lab : string) (words : list string)
    (keys : keymap) (actions : list action) (data regularise : string)
    (rs : list string) (kks : list KernelFunctions) (eps : num)
    (env0 : gmap string num) :
  accepted parseRecord files words keys data regularise rs kks →
  (length rs < fuel)%nat →
  parseConst regularise = Some eps →
  let valnames := getWords data data_separators in
  let vs := (λ kk, kernel_value (kernel_words valnames kk)) <$> kks in
  let ksum := foldl add zero vs in
  ∃ acts,
    expandShortcut parseRecord expandFunctions files fuel lab words keys
      actions = Ok acts
    ∧ run' env0 acts !! ksum_label lab = Some ksum
    ∧ run' env0 acts !! rksum_label lab = Some (add ksum eps)
    ∧ ∀ (i : nat) (v : num), vs !! i = Some v →
        run' env0 acts !! kernel_label lab (N.of_nat i + 1) = Some v
        ∧ run' env0 acts !! output_label lab (N.of_nat i + 1)
          = Some (div v (add ksum eps)).
Proof.
  intros Hacc Hfuel Heps valnames vs ksum.
  eexists. split; [by apply (expandShortcut_closed _ _ _ _ _ _ _ _ _ _ _ _ Hacc)|].
  set (n := N.of_nat (length rs)).
  assert (length kks = length rs) as Hlen
    by (symmetry; eapply Forall2_length, acc_records, Hacc).
  rewrite !run_app.
  set (env1 := run' (run' env0 actions) (kernel_actions lab valnames 0 kks)).
  assert (∀ i v, vs !! i = Some v →
            env1 !! kernel_label lab (N.of_nat i + 1) = Some v) as Hk1.
  { intros i v Hv. unfold vs in Hv. rewrite list_lookup_fmap in Hv.
    destruct (kks !! i) as [kk|] eqn:Hkk; [|done]. injection Hv as <-.
    unfold env1. rewrite <-(N.add_0_l (N.of_nat i)).
    by apply run_kernel_actions. }
  assert (Forall2 (λ k v, env1 !! kernel_label lab (k + 1) = Some v)
            (uint_range n) vs) as Hall.
  { apply Forall2_same_length_lookup_2.
    - unfold vs, n. rewrite length_uint_range, length_fmap. lia.
    - intros i k v [-> _]%uint_range_lookup Hv. by apply Hk1. }
  cbn [run_actions foldl].
  rewrite (exec_ksum _ _ _ _ _ _ _ _ _ Hall). fold ksum.
  rewrite (exec_minput _ _ _ _ _ _ _ _ ksum eps) by
    (try apply lookup_insert_eq; done).
  set (env3 := <[rksum_label lab := add ksum eps]>
                 (<[ksum_label lab := ksum]> env1)).
  fold (run' env3 (responsibility_actions expandFunctions lab words keys n)).
  unfold responsibility_actions.
  assert (∀ key, (∀ j s, key ≠ output_label lab j +:+ s) →
            run' env3 (concat (block lab words keys <$> uint_range n)) !! key
            = env3 !! key) as Hkeep.
  { intros key Hkey. apply run_blocks_other.
    - intros j _. rewrite <-(app_empty_r (output_label lab (j + 1))).
      apply Hkey.
    - intros j s. apply Hkey. }
  destruct (kernel_label_not_sums lab 0) as (_ & _ & Hsums).
  split; [|split].
  - rewrite Hkeep by (intros; apply not_eq_sym, output_label_not_ksum).
    unfold env3. rewrite lookup_insert_ne by done. apply lookup_insert_eq.
  - rewrite Hkeep by (intros; apply not_eq_sym, output_label_not_rksum).
    apply lookup_insert_eq.
  - assert (∀ i v, vs !! i = Some v →
              env3 !! kernel_label lab (N.of_nat i + 1) = Some v) as Hk3.
    { intros i v Hv. unfold env3.
      destruct (kernel_label_not_sums lab (N.of_nat i + 1)) as (? & ? & _).
      rewrite !lookup_insert_ne by done. by apply Hk1. }
    intros i v Hv. split.
    + rewrite Hkeep by (intros; apply not_eq_sym, output_label_not_kernel).
      by apply Hk3.
    + apply (run_blocks_output lab words keys (add ksum eps)
               (λ k, vs !! N.to_nat k)).
      * apply lookup_insert_eq.
      * intros k v' Hv'. rewrite <-(N2Nat.id k). by apply Hk3.
      * apply elem_of_uint_range. apply lookup_lt_Some in Hv.
        unfold vs in Hv. rewrite length_fmap in Hv. unfold n. lia.
      * by rewrite Nat2N.id.
Qed.

End ChainFacts.

(** C1: for an input the expansion accepts, the expanded actions compute,
    for whatever arithmetic the numbers carry, the denominator as the sum of
    all kernel values plus the regularisation constant, and the
    responsibility published for kernel [i + 1] as its value divided by that
    denominator. *)
Theorem responsibility_is_value_over_regularised_sum
    {num : Type} (zero : num) (add div : num → num → num)
    (parseConst : string → option num) (kernel_value : list string → num)
    (parseRecord : string → list string → option KernelFunctions)
    (expandFunctions :
       string → string → string → list string → keymap → list action)
    (files : gmap string (list string))
    (fuel : nat) (lab : string) (words : list string) (keys : keymap)
    (actions : list action) (data regularise : string) (rs : list string)
    (kks : list KernelFunctions) (eps : num) (env0 : gmap string num) :
  extends_labout expandFunctions →
  accepted parseRecord files words keys data regularise rs kks →
  (length rs < fuel)%nat →
  parseConst regularise = Some eps →
  let value := λ kk,
    kernel_value (kernel_words (getWords data data_separators) kk) in
  let denominator := add (foldl add zero (value <$> kks)) eps in
  ∃ acts,
    expandShortcut parseRecord expandFunctions files fuel lab words keys actions
    = Ok acts
    ∧ run_actions zero add div parseConst kernel_value env0 acts
        !! rksum_label lab = Some denominator
    ∧ ∀ (i : nat) (kk : KernelFunctions), kks !! i = Some kk →
        run_actions zero add div parseConst kernel_value env0 acts
          !! output_label lab (N.of_nat i + 1)
        = Some (div (value kk) denominator).
Proof.
  intros Hfresh Hacc Hfuel Heps value denominator.
  destruct (chain_values zero add div parseConst kernel_value parseRecord
              expandFunctions files Hfresh fuel lab words keys actions data
              regularise rs kks eps env0 Hacc Hfuel Heps)
    as (acts & Hexp & _ & Hd & Hout).
  exists acts. split; [done|]. split; [done|].
  intros i kk Hkk. apply Hout. rewrite list_lookup_fmap, Hkk. done.
Qed.

Lemma no_functions_extend : extends_labout Manual.no_functions.
Proof. intros labout argin weights words keys a l Ha. inversion Ha. Defined.

Lemma manual_accepted :
  accepted Manual.parse Manual.files Manual.words Manual.keys "phi,psi"
    "0.001" ["k1"; "k2"] Manual.kernels.
Proof.
  split; try reflexivity.
  - exists "clusters.dat". split; reflexivity.
  - repeat constructor.
Defined.

Lemma responsibility_is_value_over_regularised_sum_witness :
  ∃ acts,
    Manual.expanded = Ok acts
    ∧ run_Q Manual.near_first ∅ acts !! "p_rksum"
      = Some (0 + (3 # 4) + (1 # 4) + (0 + (1 # 1000)))%Q
    ∧ ∀ (i : nat) (kk : KernelFunctions), Manual.kernels !! i = Some kk →
        run_Q Manual.near_first ∅ acts !! output_label "p" (N.of_nat i + 1)
        = Some (Manual.near_first
                  (kernel_words (getWords "phi,psi" data_separators) kk)
                / (0 + (3 # 4) + (1 # 4) + (0 + (1 # 1000))))%Q.
Proof.
  apply (responsibility_is_value_over_regularised_sum 0%Q Qplus Qdiv
           parseDecimal Manual.near_first Manual.parse Manual.no_functions
           Manual.files 3 "p" Manual.words Manual.keys [] "phi,psi" "0.001"
           ["k1"; "k2"] Manual.kernels (0 + (1 # 1000))%Q ∅).
  - apply no_functions_extend.
  - apply manual_accepted.
  - simpl. lia.
  - reflexivity.
Defined.

(** ** Exact arithmetic *)

Section Rationals.

Local Open Scope Q_scope.

Lemma foldl_Qplus (acc : Q) (l : list Q) : foldl Qplus acc l == acc + Qsum l.
Proof.
  unfold Qsum. revert acc. induction l as [|x l IH]; intros acc; simpl.
  - ring.
  - rewrite (IH (acc + x)), (IH (0 + x)). ring.
Qed.

Lemma Qsum_cons (x : Q) (l : list Q) : Qsum (x :: l) == x + Qsum l.
Proof. unfold Qsum at 1. simpl. rewrite foldl_Qplus. ring. Qed.

Lemma Qsum_nonneg (l : list Q) : Forall (λ v, 0 <= v) l → 0 <= Qsum l.
Proof.
  induction 1 as [|x l Hx _ IH]; [done|].
  rewrite Qsum_cons. lra.
Qed.

Lemma Qsum_zero (l : list Q) : Forall (λ v, v == 0) l → Qsum l == 0.
Proof.
  induction 1 as [|x l Hx _ IH]; [done|].
  rewrite Qsum_cons, Hx, IH. ring.
Qed.

Lemma Qsum_positive (l : list Q) :
  Forall (λ v, 0 <= v) l → Exists (λ v, 0 < v) l → 0 < Qsum l.
Proof.
  intros Hall Hex. induction Hall as [|x l Hx Hl IH].
  - by apply Exists_nil in Hex.
  - rewrite Qsum_cons. apply Qsum_nonneg in Hl as Hs.
    apply Exists_cons in Hex as [Hpos|Hex].
    + lra.
    + specialize (IH Hex). lra.
Qed.

Lemma Qsum_div (d : Q) (l : list Q) :
  Qsum ((λ v, v / d) <$> l) == Qsum l / d.
Proof.
  induction l as [|x l IH].
  - unfold Qsum, Qdiv. simpl. ring.
  - cbn [fmap list_fmap]. rewrite !Qsum_cons. fold (fmap (λ v, v / d) l).
    rewrite IH. unfold Qdiv. ring.
Qed.

(** The regularised ratio [s / (s + e)]. *)
Lemma ratio_bounds (s e : Q) :
  0 <= s → 0 < e →
  0 <= s / (s + e) ∧ s / (s + e) < 1 ∧ (0 < s → 0 < s / (s + e))
  ∧ (s == 0 → s / (s + e) == 0).
Proof.
  intros Hs He. assert (0 < s + e) as Hd by lra. repeat split.
  - apply Qle_shift_div_l; [done|]. lra.
  - apply Qlt_shift_div_r; [done|]. lra.
  - intros Hpos. apply Qlt_shift_div_l; [done|]. lra.
  - intros H0. rewrite H0. unfold Qdiv. ring.
Qed.

End Rationals.

Section RegularisedResponsibilities.

Local Open Scope Q_scope.

Variable kernel_value : list string → Q.
Variable parseRecord : string → list string → option KernelFunctions.
Variable expandFunctions :
  string → string → string → list string → keymap → list action.
Variable files : gmap string (list string).

(** The responsibilities of an accepted input, as a list in kernel order. *)
Lemma responsibilities_of_chain (fuel : nat) (lab : string)
    (words : list string) (keys : keymap) (actions : list action)
    (data regularise : string) (rs : list string)
    (kks : list KernelFunctions) (eps : Q) (env0 : gmap string Q) :
  extends_labout expandFunctions →
  accepted parseRecord files words keys data regularise rs kks →
  (length rs < fuel)%nat →
  parseDecimal regularise = Some eps →
  let vs := (λ kk, kernel_value
                     (kernel_words (getWords data data_separators) kk))
              <$> kks in
  ∃ acts,
    expandShortcut parseRecord expandFunctions files fuel lab words keys
      actions = Ok acts
    ∧ run_Q kernel_value env0 acts !! rksum_label lab = Some (Qsum vs + eps)
    ∧ responsibilities (run_Q kernel_value env0 acts) lab
        (N.of_nat (length rs))
      = Some ((λ v, v / (Qsum vs + eps)) <$> vs).
Proof.
  intros Hfresh Hacc Hfuel Heps vs.
  destruct (chain_values 0 Qplus Qdiv parseDecimal kernel_value parseRecord
              expandFunctions files Hfresh fuel lab words keys actions data
              regularise rs kks eps env0 Hacc Hfuel Heps)
    as (acts & Hexp & _ & Hd & Hout).
  exists acts. split; [done|]. split; [done|].
  unfold responsibilities. apply mapM_Some.
  assert (length kks = length rs) as Hlen
    by (symmetry; eapply Forall2_length, acc_records, Hacc).
  apply Forall2_same_length_lookup_2.
  - unfold vs. rewrite length_uint_range, !length_fmap. lia.
  - intros i k r [-> _]%uint_range_lookup Hr.
    rewrite list_lookup_fmap in Hr.
    destruct (vs !! i) as [v|] eqn:Hv; [|done]. injection Hr as <-.
    by apply Hout.
Qed.

End RegularisedResponsibilities.

(** Without rounding: over the exact rationals, for non-negative kernel
    values and a positive regularisation constant, the responsibilities of an
    accepted input add up to a number between 0 and 1 that is 0 when every
    kernel value is 0 and positive as soon as one kernel value is. In
    floating-point arithmetic neither the bound 1 nor the positivity
    survives rounding; see the section on rounding. *)
Lemma unrounded_sum_between_0_and_1
    (kernel_value : list string → Q)
    (parseRecord : string → list string → option KernelFunctions)
    (expandFunctions :
       string → string → string → list string → keymap → list action)
    (files : gmap string (list string))
    (fuel : nat) (lab : string) (words : list string) (keys : keymap)
    (actions : list action) (data regularise : string) (rs : list string)
    (kks : list KernelFunctions) (eps : Q) (env0 : gmap string Q) :
  extends_labout expandFunctions →
  accepted parseRecord files words keys data regularise rs kks →
  (length rs < fuel)%nat →
  parseDecimal regularise = Some eps →
  (0 < eps)%Q →
  let values := (λ kk, kernel_value
                         (kernel_words (getWords data data_separators) kk))
                  <$> kks in
  Forall (λ v, 0 <= v)%Q values →
  ∃ acts resp,
    expandShortcut parseRecord expandFunctions files fuel lab words keys actions
    = Ok acts
    ∧ responsibilities (run_Q kernel_value env0 acts) lab
        (N.of_nat (length rs)) = Some resp
    ∧ (0 <= Qsum resp)%Q ∧ (Qsum resp <= 1)%Q
    ∧ (Forall (λ v, v == 0)%Q values → (Qsum resp == 0)%Q)
    ∧ (Exists (λ v, 0 < v)%Q values → (0 < Qsum resp)%Q).
Proof.
  intros Hfresh Hacc Hfuel Heps Hpos values Hnonneg.
  destruct (responsibilities_of_chain kernel_value parseRecord expandFunctions
              files fuel lab words keys actions data regularise rs kks eps
              env0 Hfresh Hacc Hfuel Heps) as (acts & Hexp & _ & Hresp).
  fold values in Hresp. eexists acts, _. split; [done|]. split; [done|].
  pose proof (Qsum_nonneg _ Hnonneg) as Hs.
  destruct (ratio_bounds (Qsum values) eps Hs Hpos) as (H0 & H1 & Hp & Hz).
  rewrite Qsum_div. repeat split.
  - done.
  - by apply Qlt_le_weak.
  - intros Hzero. apply Hz. by apply Qsum_zero.
  - intros Hex. apply Hp. by apply Qsum_positive.
Qed.

(** C2, as stated, fails: when every kernel value is 0 (the spec's own
    scenario C) the responsibilities add up to 0, which is outside (0, 1]. *)
Lemma responsibilities_sum_reaches_0 :
  ∃ acts resp,
    Manual.expanded = Ok acts
    ∧ responsibilities (run_Q Manual.far_away ∅ acts) "p" 2 = Some resp
    ∧ ¬ ((0 < Qsum resp)%Q ∧ (Qsum resp <= 1)%Q).
Proof.
  eexists _, _. split; [reflexivity|]. split; [vm_compute; reflexivity|].
  intros [Hlt _]. vm_compute in Hlt. discriminate Hlt.
Qed.



(** ** Reading the kernel file *)

Lemma u32_bound (n : N) : u32 n < 2 ^ 32.
Proof. apply N.mod_lt. done. Qed.

Lemma kernel_loop_terminates
    (parseRecord : string → list string → option KernelFunctions)
    (lab : string) (valnames : list string)
    (rs : list string) (kks : list KernelFunctions) :
  Forall2 (λ r kk, parseRecord r valnames = Some kk) rs kks →
  ∀ (fuel : nat) (k nkernels : N) (actions : list action),
    (length rs < fuel)%nat →
    nkernels < 2 ^ 32 →
    ∃ pushed,
      kernel_loop parseRecord fuel lab valnames k {| records := rs |} actions
        nkernels
      = Ok ({| records := [] |}, actions ++ pushed,
            u32 (nkernels + N.of_nat (length rs)))
      ∧ Forall2 (λ a kk, ∃ num, a = kinput lab valnames num kk) pushed kks.
Proof.
  induction 1 as [|r kk rs kks Hr _ IH]; intros fuel k nkernels actions Hf Hn.
  - destruct fuel; [simpl in Hf; lia|]. exists []. split; [|constructor].
    simpl. by rewrite app_nil_r, N.add_0_r, u32_small.
  - destruct fuel; [simpl in Hf; lia|].
    cbn [kernel_loop]. unfold KernelFunctions_read. cbn [records].
    rewrite Hr. cbn [obind]. unfold scanField. cbn [records tail].
    destruct (IH fuel (u32 (k + 1)) (u32 (nkernels + 1))
                (actions ++ [kinput lab valnames (convert (u32 (k + 1))) kk]))
      as (pushed & Hloop & Hpushed);
      [simpl in Hf; lia|apply u32_bound|].
    exists (kinput lab valnames (convert (u32 (k + 1))) kk :: pushed). split.
    + rewrite Hloop, <-app_assoc. simpl. do 2 f_equal.
      unfold u32. rewrite N.Div0.add_mod_idemp_l. f_equal. lia.
    + constructor; [by eexists|done].
Qed.

(** C5: when every record of the file is one the reader accepts, the loading
    loop returns normally once it has fuel for one read per record and the
    last, failing one: it has pushed exactly one [KERNEL] action per record,
    in the order of the file and carrying that record's kernel, it has
    counted the records (as an [unsigned]), and it has stopped at the first
    read that returns a null pointer, with the file at its end. *)
Theorem loading_ends_at_end_of_file
    (parseRecord : string → list string → option KernelFunctions)
    (fuel : nat) (lab : string) (valnames : list string)
    (actions : list action) (rs : list string) (kks : list KernelFunctions) :
  Forall2 (λ r kk, parseRecord r valnames = Some kk) rs kks →
  (length rs < fuel)%nat →
  ∃ pushed,
    kernel_loop parseRecord fuel lab valnames 0 {| records := rs |} actions 0
    = Ok ({| records := [] |}, actions ++ pushed, u32 (N.of_nat (length rs)))
    ∧ length pushed = length rs
    ∧ Forall2 (λ a kk, ∃ num, a = kinput lab valnames num kk) pushed kks
    ∧ KernelFunctions_read parseRecord {| records := [] |} valnames = Ok None
    ∧ (N.of_nat (length rs) < 2 ^ 32 →
       u32 (N.of_nat (length rs)) = N.of_nat (length rs)
       ∧ pushed = kernel_actions lab valnames 0 kks).
Proof.
  intros Hrs Hfuel.
  destruct (kernel_loop_terminates parseRecord lab valnames rs kks Hrs fuel 0 0
              actions Hfuel) as (pushed & Hloop & Hpushed); [done|].
  rewrite N.add_0_l in Hloop. exists pushed. split; [done|].
  split; [|split; [done|split; [done|]]].
  - rewrite (Forall2_length _ _ _ Hpushed). symmetry.
    by apply (Forall2_length _ _ _ Hrs).
  - intros Hn. split; [by apply u32_small|].
    rewrite (kernel_loop_reads_all parseRecord lab valnames rs kks Hrs) in Hloop
      by (rewrite ?N.add_0_l; done).
    injection Hloop as Happ _. by apply (inj (app actions)) in Happ.
Qed.

Lemma loading_ends_at_end_of_file_witness :
  ∃ pushed,
    kernel_loop Manual.parse 3 "p" ["phi"; "psi"] 0
      {| records := ["k1"; "k2"] |} [] 0
    = Ok ({| records := [] |}, [] ++ pushed, u32 2)
    ∧ length pushed = 2%nat
    ∧ Forall2 (λ a kk, ∃ num, a = kinput "p" ["phi"; "psi"] num kk) pushed
        Manual.kernels
    ∧ KernelFunctions_read Manual.parse {| records := [] |} ["phi"; "psi"]
      = Ok None
    ∧ (2 < 2 ^ 32 →
       u32 2 = 2
       ∧ pushed = kernel_actions "p" ["phi"; "psi"] 0 Manual.kernels).
Proof.
  apply (loading_ends_at_end_of_file Manual.parse 3 "p" ["phi"; "psi"] []
           ["k1"; "k2"] Manual.kernels).
  - repeat constructor.
  - simpl. lia.
Defined.

(** The counters are [unsigned]: the record after number [2^32 - 1] would be
    numbered 0. *)
Example kernel_number_wraps : convert (u32 ((2 ^ 32 - 1) + 1)) = "0".
Proof. reflexivity. Qed.

(** A record the reader rejects is an error, not the end of the kernels. *)
Example rejected_record_is_fatal :
  kernel_loop Manual.parse 5 "p" ["phi"; "psi"] 0
    {| records := ["k1"; ""; "k3"] |} [] 0 = PlumedError.
Proof. reflexivity. Qed.

(** Without fuel for the last, failing read the model gives no result. *)
Example fuel_for_the_last_read :
  kernel_loop Manual.parse 2 "p" ["phi"; "psi"] 0
    {| records := ["k1"; "k2"] |} [] 0 = OutOfFuel.
Proof. reflexivity. Qed.

(** ** Labels follow the file *)

Lemma kernel_actions_lookup (lab : string) (valnames : list string)
    (kks : list KernelFunctions) :
  ∀ (k : N) (i : nat) (kk : KernelFunctions),
    kks !! i = Some kk →
    kernel_actions lab valnames k kks !! i
    = Some (kinput lab valnames (convert (k + N.of_nat i + 1)) kk).
Proof.
  induction kks as [|kk0 kks IH]; intros k i kk Hi; [done|].
  destruct i as [|i]; simpl in *.
  - injection Hi as ->. by rewrite N.add_0_r.
  - rewrite (IH (k + 1) i kk Hi). do 3 f_equal. lia.
Qed.

(** C7: for an accepted input the result is the given actions followed by
    the [KERNEL] actions in file order, the two sums, and one block per
    kernel in file order; the record at place [i] (from 0) gives the [KERNEL]
    action at place [i], labelled [lab_kernel-(i+1)] and carrying that
    record's kernel, and block [i] starts with the responsibility labelled
    [lab-(i+1)]. *)
Theorem outputs_labelled_in_file_order
    (parseRecord : string → list string → option KernelFunctions)
    (expandFunctions :
       string → string → string → list string → keymap → list action)
    (files : gmap string (list string))
    (fuel : nat) (lab : string) (words : list string) (keys : keymap)
    (actions : list action) (data regularise : string) (rs : list string)
    (kks : list KernelFunctions) :
  accepted parseRecord files words keys data regularise rs kks →
  (length rs < fuel)%nat →
  let valnames := getWords data data_separators in
  let n := N.of_nat (length rs) in
  let blocks := responsibility_block expandFunctions lab words keys
                  <$> uint_range n in
  expandShortcut parseRecord expandFunctions files fuel lab words keys actions
  = Ok (actions ++ kernel_actions lab valnames 0 kks
          ++ [ksum_action lab n; minput lab regularise] ++ concat blocks)
  ∧ length blocks = length rs
  ∧ ∀ (i : nat) (kk : KernelFunctions), kks !! i = Some kk →
      let k := N.of_nat i + 1 in
      kernel_actions lab valnames 0 kks !! i
      = Some (kinput lab valnames (convert k) kk)
      ∧ label_of (kinput lab valnames (convert k) kk)
        = Some (kernel_label lab k)
      ∧ last (kinput lab valnames (convert k) kk)
        = Some ("KERNEL=" +:+ getInputString kk)
      ∧ (∃ functions, blocks !! i = Some (finput lab (convert k) :: functions))
      ∧ label_of (finput lab (convert k)) = Some (output_label lab k).
Proof.
  intros Hacc Hfuel valnames n blocks.
  assert (length kks = length rs) as Hlen
    by (symmetry; eapply Forall2_length, acc_records, Hacc).
  split; [by apply (expandShortcut_closed _ _ _ _ _ _ _ _ _ _ _ _ Hacc)|].
  split.
  { unfold blocks, n. rewrite length_fmap, length_uint_range. lia. }
  intros i kk Hkk k. repeat split.
  - rewrite (kernel_actions_lookup _ _ _ 0 i kk Hkk). by rewrite N.add_0_l.
  - rewrite label_of_kinput. cbn [label_of]. apply strip_colon_app.
  - unfold kinput. rewrite !app_assoc. apply last_snoc.
  - eexists. unfold blocks, uint_range. rewrite !list_lookup_fmap.
    rewrite lookup_seq_lt.
    + reflexivity.
    + apply lookup_lt_Some in Hkk. unfold n. lia.
  - rewrite label_of_finput. cbn [label_of]. apply strip_colon_app.
Qed.

Lemma outputs_labelled_in_file_order_witness :
  let blocks := responsibility_block Manual.mean_function "p" Manual.words
                  (<["MEAN" := ""]> Manual.keys) <$> uint_range 2 in
  expandShortcut Manual.parse Manual.mean_function Manual.files 3 "p"
    Manual.words (<["MEAN" := ""]> Manual.keys) []
  = Ok ([] ++ kernel_actions "p" ["phi"; "psi"] 0 Manual.kernels
          ++ [ksum_action "p" 2; minput "p" "0.001"] ++ concat blocks)
  ∧ length blocks = 2%nat
  ∧ ∀ (i : nat) (kk : KernelFunctions), Manual.kernels !! i = Some kk →
      let k := N.of_nat i + 1 in
      kernel_actions "p" ["phi"; "psi"] 0 Manual.kernels !! i
      = Some (kinput "p" ["phi"; "psi"] (convert k) kk)
      ∧ label_of (kinput "p" ["phi"; "psi"] (convert k) kk)
        = Some (kernel_label "p" k)
      ∧ last (kinput "p" ["phi"; "psi"] (convert k) kk)
        = Some ("KERNEL=" +:+ getInputString kk)
      ∧ (∃ functions, blocks !! i = Some (finput "p" (convert k) :: functions))
      ∧ label_of (finput "p" (convert k)) = Some (output_label "p" k).
Proof.
  apply (outputs_labelled_in_file_order Manual.parse Manual.mean_function
           Manual.files 3 "p" Manual.words (<["MEAN" := ""]> Manual.keys) []
           "phi,psi" "0.001" ["k1"; "k2"] Manual.kernels).
  - split; try reflexivity.
    + exists "clusters.dat". split; reflexivity.
    + repeat constructor.
  - simpl. lia.
Defined.

(** The actions of the manual's example, word for word. *)
Example expansion_of_the_manual_example :
  expandShortcut Manual.parse Manual.mean_function Manual.files 3 "p"
    Manual.words (<["MEAN" := ""]> Manual.keys) []
  = Ok [["p_kernel-1:"; "KERNEL"; "NORMALIZED"; "ARG1=phi"; "ARG2=psi";
         "KERNEL=k1"];
        ["p_kernel-2:"; "KERNEL"; "NORMALIZED"; "ARG1=phi"; "ARG2=psi";
         "KERNEL=k2"];
        ["p_ksum:"; "COMBINE"; "ARG1=p_kernel-1"; "ARG2=p_kernel-2";
         "PERIODIC=NO"];
        ["p_rksum:"; "MATHEVAL"; "ARG1=p_ksum"; "FUNC=x+0.001"; "PERIODIC=NO"];
        ["p-1:"; "MATHEVAL"; "ARG1=p_kernel-1"; "ARG2=p_rksum"; "FUNC=x/y";
         "PERIODIC=NO"];
        ["p-1_mean:"; "MEAN"; "ARG=p-1"];
        ["p-2:"; "MATHEVAL"; "ARG1=p_kernel-2"; "ARG2=p_rksum"; "FUNC=x/y";
         "PERIODIC=NO"];
        ["p-2_mean:"; "MEAN"; "ARG=p-2"]].
Proof. reflexivity. Qed.

Lemma mean_function_extends : extends_labout Manual.mean_function.
Proof.
  intros labout argin weights words keys a l. unfold Manual.mean_function.
  destruct (keys !! "MEAN"); [|by intros ?%elem_of_nil].
  intros ->%list_elem_of_singleton. cbn [label_of].
  replace (labout +:+ "_mean:") with ((labout +:+ "_mean") +:+ ":")
    by (by rewrite app_assoc').
  rewrite strip_colon_app. intros [= <-]. by exists "mean".
Qed.

(** ** The regularisation keyword *)

Lemma readKeywords_supplied (registered : Keywords) (supplied : keymap)
    (k v : string) :
  supplied !! k = Some v → readKeywords registered supplied !! k = Some v.
Proof.
  unfold readKeywords. revert supplied.
  induction registered as [|kw registered IH]; intros supplied Hk; [done|].
  simpl. apply IH.
  destruct (kw_default kw) as [d|]; [|done].
  destruct (supplied !! kw_key kw) eqn:Hkw; [done|].
  rewrite lookup_insert_ne; [done|]. intros Heq. congruence.
Qed.

Lemma readKeywords_regularise (others : Keywords) (supplied : keymap) :
  readKeywords (shortcutKeywords others []) supplied !! "REGULARISE"
  = Some (default "0.001" (supplied !! "REGULARISE")).
Proof.
  destruct (supplied !! "REGULARISE") as [v|] eqn:Hv.
  - by apply readKeywords_supplied.
  - unfold shortcutKeywords, Keywords_add, Keywords_add_default, readKeywords.
    cbn [app foldl kw_default kw_key]. rewrite Hv.
    apply (readKeywords_supplied others). apply lookup_insert_eq.
Qed.

(** C6: the keyword REGULARISE is registered with the default [0.001]. The
    options handed to the expansion carry the caller's value if there is one
    and [0.001] otherwise; an accepted expansion writes that very text into
    the action that adds the constant to the sum of the kernels, whose value
    is then the sum plus the constant the text denotes; the text [0.001]
    denotes one thousandth. *)
Theorem regularise_defaults_to_0_001
    (kernel_value : list string → Q)
    (parseRecord : string → list string → option KernelFunctions)
    (expandFunctions :
       string → string → string → list string → keymap → list action)
    (files : gmap string (list string))
    (others : Keywords) (supplied : keymap)
    (fuel : nat) (lab : string) (words : list string)
    (actions : list action) (data regularise : string) (rs : list string)
    (kks : list KernelFunctions) (env0 : gmap string Q) :
  let keys := readKeywords (shortcutKeywords others []) supplied in
  extends_labout expandFunctions →
  accepted parseRecord files words keys data regularise rs kks →
  (length rs < fuel)%nat →
  let values := (λ kk, kernel_value
                         (kernel_words (getWords data data_separators) kk))
                  <$> kks in
  regularise = default "0.001" (supplied !! "REGULARISE")
  ∧ (∃ acts,
       expandShortcut parseRecord expandFunctions files fuel lab words keys
         actions = Ok acts
       ∧ [lab +:+ "_rksum:"; "MATHEVAL"; "ARG1=" +:+ lab +:+ "_ksum";
          "FUNC=x+" +:+ regularise; "PERIODIC=NO"] ∈ acts
       ∧ ∀ eps, parseDecimal regularise = Some eps →
           run_Q kernel_value env0 acts !! rksum_label lab
           = Some (Qsum values + eps)%Q)
  ∧ parseDecimal "0.001" = Some (0 + (1 # 1000))%Q
  ∧ (0 + (1 # 1000) == 1 # 1000)%Q.
Proof.
  intros keys Hfresh Hacc Hfuel values.
  assert (regularise = default "0.001" (supplied !! "REGULARISE")) as Hreg.
  { pose proof (acc_regularise _ _ _ _ _ _ _ _ Hacc) as H. unfold keys in H.
    rewrite readKeywords_regularise in H. congruence. }
  split; [done|]. split; [|split; reflexivity].
  eexists. split; [by apply (expandShortcut_closed _ _ _ _ _ _ _ _ _ _ _ _ Hacc)|].
  split.
  - apply elem_of_app. right. apply elem_of_app. right.
    apply elem_of_app. left. apply elem_of_cons. right. by left.
  - intros eps Heps.
    destruct (responsibilities_of_chain kernel_value parseRecord
                expandFunctions files fuel lab words keys actions data
                regularise rs kks eps env0 Hfresh Hacc Hfuel Heps)
      as (acts & Hexp & Hd & _).
    rewrite (expandShortcut_closed _ _ _ _ _ _ _ _ _ _ _ _ Hacc Hfuel) in Hexp.
    injection Hexp as <-. done.
Qed.

(** The caller leaves REGULARISE out. *)
Lemma regularise_defaults_to_0_001_witness :
  "0.001" = default "0.001" (Manual.supplied !! "REGULARISE")
  ∧ (∃ acts,
       Manual.expanded = Ok acts
       ∧ ["p_rksum:"; "MATHEVAL"; "ARG1=p_ksum"; "FUNC=x+0.001"; "PERIODIC=NO"]
         ∈ acts
       ∧ ∀ eps, parseDecimal "0.001" = Some eps →
           run_Q Manual.near_first ∅ acts !! "p_rksum"
           = Some (Qsum [3 # 4; 1 # 4] + eps)%Q)
  ∧ parseDecimal "0.001" = Some (0 + (1 # 1000))%Q
  ∧ (0 + (1 # 1000) == 1 # 1000)%Q.
Proof.
  apply (regularise_defaults_to_0_001 Manual.near_first Manual.parse
           Manual.no_functions Manual.files [] Manual.supplied 3 "p"
           Manual.words [] "phi,psi" "0.001" ["k1"; "k2"] Manual.kernels ∅).
  - apply no_functions_extend.
  - apply manual_accepted.
  - simpl. lia.
Defined.

(** The caller writes REGULARISE=0.05. *)
Example regularise_supplied :
  expandShortcut Manual.parse Manual.no_functions Manual.files 3 "p"
    Manual.words
    (readKeywords (shortcutKeywords [] [])
       (<["REGULARISE" := "0.05"]> Manual.supplied)) []
  = Ok [["p_kernel-1:"; "KERNEL"; "NORMALIZED"; "ARG1=phi"; "ARG2=psi";
         "KERNEL=k1"];
        ["p_kernel-2:"; "KERNEL"; "NORMALIZED"; "ARG1=phi"; "ARG2=psi";
         "KERNEL=k2"];
        ["p_ksum:"; "COMBINE"; "ARG1=p_kernel-1"; "ARG2=p_kernel-2";
         "PERIODIC=NO"];
        ["p_rksum:"; "MATHEVAL"; "ARG1=p_ksum"; "FUNC=x+0.05"; "PERIODIC=NO"];
        ["p-1:"; "MATHEVAL"; "ARG1=p_kernel-1"; "ARG2=p_rksum"; "FUNC=x/y";
         "PERIODIC=NO"];
        ["p-2:"; "MATHEVAL"; "ARG1=p_kernel-2"; "ARG2=p_rksum"; "FUNC=x/y";
         "PERIODIC=NO"]].
Proof. reflexivity. Qed.

(** Nothing keeps the constant positive: with REGULARISE=0 and kernels that
    all evaluate to 0 the denominator is 0. *)
Example regularise_zero_denominator :
  ∃ acts,
    expandShortcut Manual.parse Manual.no_functions Manual.files 3 "p"
      Manual.words
      (readKeywords (shortcutKeywords [] [])
         (<["REGULARISE" := "0"]> Manual.supplied)) [] = Ok acts
    ∧ ∃ d, run_Q Manual.far_away ∅ acts !! "p_rksum" = Some d ∧ (d == 0)%Q.
Proof.
  eexists. split; [reflexivity|]. eexists. split; [vm_compute; reflexivity|].
  reflexivity.
Qed.

(** ** The constructor and the registration *)

(** C9: whatever the base-class constructors do, constructing a PAMM object
    never yields an object: when both base constructors return, the body
    raises the fatal error. The class is registered as the shortcut [PAMM],
    and under that directive the expansion does its work. *)
Theorem PAMM_cannot_be_constructed
    (A S : Type) (actor : ActionOptions → outcome A)
    (sctor : ActionOptions → outcome S) (ao : ActionOptions) (a : A) (s : S)
    (ws : list string) :
  is_Ok (PAMM A S actor sctor ao) = false
  ∧ PAMM A S (λ _, Ok a) (λ _, Ok s) ao = PlumedError
  ∧ is_Ok (expandShortcut Manual.parse Manual.no_functions Manual.files 3
             "p" (registered_directive :: ws) Manual.keys []) = true
  ∧ expandShortcut Manual.parse Manual.no_functions Manual.files 3 "p"
      ("KERNEL" :: ws) Manual.keys [] = PlumedError.
Proof.
  split; [apply PAMM_never_Ok|]. split; [reflexivity|].
  split; reflexivity.
Qed.

(** ** Clustering *)

Section ClusteringFacts.

Import Clustering.

Variable nl : NeighborList.

Lemma cost_from_insert (visited : list bool) :
  ∀ (i x : nat),
    visited !! x = Some false →
    (cost_from nl i (<[x := true]> visited) + 1
     + length (neighbours nl (i + x))
     = cost_from nl i visited)%nat.
Proof.
  induction visited as [|b visited IH]; intros i x Hx; [done|].
  destruct x as [|x]; simpl in *.
  - injection Hx as ->. rewrite Nat.add_0_r. lia.
  - specialize (IH (S i) x Hx).
    replace (i + S x)%nat with (S i + x)%nat by lia. lia.
Qed.

Lemma sum_drop_lookup (i : nat) :
  (length (neighbours nl i) + sum_list (length <$> drop (S i) nl)
   = sum_list (length <$> drop i nl))%nat.
Proof.
  unfold neighbours. destruct (nl !! i) as [ns|] eqn:Hi.
  - by rewrite (drop_S _ _ _ Hi).
  - apply lookup_ge_None in Hi. rewrite !drop_ge by lia. done.
Qed.

Lemma cost_from_bound (visited : list bool) :
  ∀ i : nat,
    (cost_from nl i visited
     ≤ length visited + sum_list (length <$> drop i nl))%nat.
Proof.
  induction visited as [|b visited IH]; intros i; simpl; [lia|].
  specialize (IH (S i)). pose proof (sum_drop_lookup i).
  destruct b; lia.
Qed.

Lemma fuel_is_enough (visited : list bool) (fuel : nat) :
  length visited = length nl → (enough_fuel nl ≤ fuel)%nat →
  (1 + cost_from nl 0 visited < fuel)%nat.
Proof.
  intros Hlen Hfuel. pose proof (cost_from_bound visited 0) as Hb.
  rewrite drop_0 in Hb. unfold enough_fuel in Hfuel. lia.
Qed.

Lemma traverse_total (id b : N) :
  id < b →
  ∀ (fuel : nat) (stack : list nat) (visited : list bool) (which : list N),
    assigned b visited which →
    (length stack + cost_from nl 0 visited < fuel)%nat →
    ∃ v w,
      traverse fuel nl id stack visited which = Ok (v, w)
      ∧ length v = length visited
      ∧ assigned b v w
      ∧ (∀ i, visited !! i = Some true → v !! i = Some true)
      ∧ (∀ x rest, stack = x :: rest → (x < length visited)%nat →
           v !! x = Some true).
Proof.
  intros Hid. induction fuel as [|fuel IH];
    intros stack visited which [Hlen Hass] Hfuel; [lia|].
  destruct stack as [|x rest]; simpl.
  { exists visited, which. repeat split; auto. discriminate. }
  destruct (visited !! x) as [[|]|] eqn:Hx.
  - destruct (IH rest visited which) as (v & w & Hr & Hl & Ha & Hm & _);
      [done|simpl in Hfuel; lia|].
    exists v, w. repeat split; try done; try apply Ha.
    intros x' rest' [= <- <-] _. by apply Hm.
  - pose proof (cost_from_insert visited 0 x Hx) as Hcost.
    simpl in Hcost, Hfuel.
    destruct (IH (neighbours nl x ++ rest) (<[x := true]> visited)
                (<[x := id]> which)) as (v & w & Hr & Hl & Ha & Hm & _).
    + split; [by rewrite !length_insert|].
      intros i Hi. destruct (decide (i = x)) as [->|Hne].
      * exists id. split; [|done]. apply list_lookup_insert_eq.
        rewrite <-Hlen. by eapply lookup_lt_Some.
      * rewrite list_lookup_insert_ne in Hi by done.
        rewrite list_lookup_insert_ne by done. by apply Hass.
    + rewrite length_app. lia.
    + exists v, w. rewrite length_insert in Hl.
      assert (<[x := true]> visited !! x = Some true) as Hxt.
      { apply list_lookup_insert_eq. by eapply lookup_lt_Some. }
      repeat split; try done; try apply Ha.
      * intros i Hi. apply Hm. rewrite list_lookup_insert_ne; [done|].
        intros ->. congruence.
      * intros x' rest' [= <- <-] _. by apply Hm.
  - destruct (IH rest visited which) as (v & w & Hr & Hl & Ha & Hm & _);
      [done|simpl in Hfuel; lia|].
    exists v, w. repeat split; try done; try apply Ha.
    intros x' rest' [= <- <-] Hlt. apply lookup_ge_None in Hx. lia.
Qed.

Lemma assigned_weaken (b b' : N) (visited : list bool) (which : list N) :
  b ≤ b' → assigned b visited which → assigned b' visited which.
Proof.
  intros Hb [Hlen Hass]. split; [done|]. intros i Hi.
  destruct (Hass i Hi) as (c & Hc & Hlt). exists c. split; [done|lia].
Qed.

Lemma components_total (fuel : nat) :
  (enough_fuel nl ≤ fuel)%nat →
  ∀ (nodes : list nat) (count : N) (visited : list bool) (which : list N),
    length visited = length nl →
    assigned count visited which →
    ∃ count' v w,
      components fuel nl nodes count visited which = Ok (count', v, w)
      ∧ length v = length nl
      ∧ assigned count' v w
      ∧ (∀ i, visited !! i = Some true → v !! i = Some true)
      ∧ (∀ i, i ∈ nodes → (i < length nl)%nat → v !! i = Some true).
Proof.
  intros Hfuel. induction nodes as [|x nodes IH];
    intros count visited which Hlen Hass; simpl.
  { exists count, visited, which. repeat split; try done; try apply Hass.
    intros i Hi. by apply elem_of_nil in Hi. }
  destruct (visited !! x) as [[|]|] eqn:Hx.
  - destruct (IH count visited which Hlen Hass)
      as (count' & v & w & Hr & Hl & Ha & Hm & Hn).
    exists count', v, w. repeat split; try done; try apply Ha.
    intros i [->|Hi]%elem_of_cons Hlt; [by apply Hm|by apply Hn].
  - destruct (traverse_total count (count + 1) ltac:(lia) fuel [x] visited
                which) as (v1 & w1 & Hr1 & Hl1 & Ha1 & Hm1 & Hh1).
    + by apply (assigned_weaken count); [lia|].
    + simpl. by apply fuel_is_enough.
    + rewrite Hr1. cbn [obind].
      destruct (IH (count + 1) v1 w1) as (count' & v & w & Hr & Hl & Ha & Hm & Hn);
        [congruence|done|].
      exists count', v, w. repeat split; try done; try apply Ha.
      * intros i Hi. by apply Hm, Hm1.
      * intros i [->|Hi]%elem_of_cons Hlt; [|by apply Hn].
        apply Hm, (Hh1 x []); [done|]. by eapply lookup_lt_Some.
  - destruct (IH count visited which Hlen Hass)
      as (count' & v & w & Hr & Hl & Ha & Hm & Hn).
    exists count', v, w. repeat split; try done; try apply Ha.
    intros i [->|Hi]%elem_of_cons Hlt; [|by apply Hn].
    apply lookup_ge_None in Hx. lia.
Qed.

End ClusteringFacts.

Section Counting.

Import Clustering.

Lemma sumN_app (l k : list N) : sumN (l ++ k) = sumN l + sumN k.
Proof.
  unfold sumN. induction l as [|x l IH]; simpl; [done|]. rewrite IH. lia.
Qed.

Lemma sumN_fmap_add {A} (f g : A → N) (l : list A) :
  sumN ((λ x, f x + g x) <$> l) = sumN (f <$> l) + sumN (g <$> l).
Proof.
  unfold sumN. induction l as [|x l IH]; csimpl; [done|]. rewrite IH. lia.
Qed.

(** Among the ids [0..count-1] exactly one equals [w], if [w] is one of
    them. *)
Lemma sumN_indicator (w count : N) :
  sumN ((λ id, if decide (w = id) then 1 else 0) <$> uint_range count)
  = if decide (w < count) then 1 else 0.
Proof.
  induction count as [|count IH] using N.peano_ind.
  - by rewrite decide_False by lia.
  - rewrite <-N.add_1_r, uint_range_succ, fmap_app, sumN_app, IH.
    cbn [fmap list_fmap sumN foldr].
    repeat case_decide; lia.
Qed.

Lemma members_cons (w : N) (ws : list N) (id : N) :
  members (w :: ws) id = (if decide (w = id) then 1 else 0) + members ws id.
Proof.
  unfold members. rewrite filter_cons.
  case_decide; simpl; lia.
Qed.

(** Counting the members of every cluster counts every node once. *)
Lemma sum_members (count : N) (which : list N) :
  Forall (λ w, w < count) which →
  sumN (members which <$> uint_range count) = N.of_nat (length which).
Proof.
  induction 1 as [|w ws Hw _ IH].
  - unfold sumN. induction (uint_range count) as [|x l IHl]; [done|].
    csimpl. by rewrite IHl.
  - rewrite (list_fmap_ext _ (λ id, (if decide (w = id) then 1 else 0)
                                    + members ws id) (uint_range count))
      by (intros; apply members_cons).
    rewrite sumN_fmap_add, sumN_indicator, IH, decide_True by done.
    simpl length. lia.
Qed.

End Counting.

(** C8: a clustering run over the neighbour list of [N] nodes, given the fuel
    of [enough_fuel], returns an assignment in which [which_cluster] has one
    entry per node, every node carries exactly one cluster id and that id is
    one of the [number_of_cluster] clusters, there is one recorded size per
    cluster, and the recorded sizes add up to [N]. *)
Theorem partition_is_complete
    (nl : Clustering.NeighborList) (c : ClusteringBase) (fuel : nat) :
  (Clustering.enough_fuel nl ≤ fuel)%nat →
  ∃ c',
    Clustering.cluster fuel nl c = Ok c'
    ∧ length (which_cluster c') = length nl
    ∧ (∀ i, (i < length nl)%nat →
         ∃ id, which_cluster c' !! i = Some id
               ∧ (∀ id', which_cluster c' !! i = Some id' → id' = id)
               ∧ (0 ≤ Z.of_N id < number_of_cluster c')%Z)
    ∧ Z.of_nat (length (cluster_sizes c')) = number_of_cluster c'
    ∧ Clustering.total_size c' = N.of_nat (length nl).
Proof.
  intros Hfuel. unfold Clustering.cluster.
  destruct (components_total nl fuel Hfuel (seq 0 (length nl)) 0
              (replicate (length nl) false) (replicate (length nl) 0))
    as (count & v & w & Hr & Hl & [Hlen Hass] & _ & Hall).
  { by rewrite length_replicate. }
  { split; [by rewrite !length_replicate|].
    intros i [Hi _]%lookup_replicate. discriminate. }
  rewrite Hr. cbn [obind]. eexists. split; [reflexivity|].
  cbn [which_cluster cluster_sizes number_of_cluster].
  assert (∀ i, (i < length nl)%nat → ∃ id, w !! i = Some id ∧ id < count)
    as Hnodes.
  { intros i Hi. apply Hass, Hall; [|done]. apply elem_of_seq. lia. }
  split; [congruence|]. split; [|split].
  - intros i Hi. destruct (Hnodes i Hi) as (id & Hid & Hlt).
    exists id. split; [done|]. split; [congruence|lia].
  - rewrite length_fmap, length_uint_range. lia.
  - unfold Clustering.total_size. cbn [cluster_sizes].
    rewrite <-list_fmap_compose.
    rewrite (list_fmap_ext _ (Clustering.members w) (uint_range count))
      by done.
    rewrite sum_members; [f_equal; congruence|].
    apply Forall_forall. intros x [i Hi]%list_elem_of_lookup_1.
    destruct (Hnodes i) as (id & Hid & Hlt); [|congruence].
    apply lookup_lt_Some in Hi. lia.
Qed.

Lemma partition_is_complete_witness :
  ∃ c',
    Clustering.cluster 18 Manual.connected Manual.fresh = Ok c'
    ∧ length (which_cluster c') = 4%nat
    ∧ (∀ i, (i < 4)%nat →
         ∃ id, which_cluster c' !! i = Some id
               ∧ (∀ id', which_cluster c' !! i = Some id' → id' = id)
               ∧ (0 ≤ Z.of_N id < number_of_cluster c')%Z)
    ∧ Z.of_nat (length (cluster_sizes c')) = number_of_cluster c'
    ∧ Clustering.total_size c' = 4.
Proof.
  apply (partition_is_complete Manual.connected Manual.fresh 18).
  vm_compute. lia.
Defined.

(** Scenario B of the spec: four connected nodes make one cluster of four,
    four nodes without an edge make four clusters of one. *)
Example four_connected_nodes :
  Clustering.cluster 18 Manual.connected Manual.fresh
  = Ok {| arguments := [{| getShape := [4; 4] |}];
          cluster_sizes := [(4, 0)];
          number_of_cluster := 1;
          which_cluster := [0; 0; 0; 0] |}.
Proof. reflexivity. Qed.

Example four_isolated_nodes :
  Clustering.cluster 6 Manual.isolated Manual.fresh
  = Ok {| arguments := [{| getShape := [4; 4] |}];
          cluster_sizes := [(1, 0); (1, 1); (1, 2); (1, 3)];
          number_of_cluster := 4;
          which_cluster := [0; 1; 2; 3] |}.
Proof. reflexivity. Qed.

(** ** Responsibilities under rounding *)

Section RoundedFacts.

Local Open Scope Q_scope.

Variable rnd : Q → xnum.
Hypothesis laws : rounding rnd.

Lemma rnd_above (v x : Q) : machine rnd v → v <= x → xle (Fin v) (rnd x).
Proof.
  intros (v' & Hv & Heq) Hle.
  pose proof (rnd_monotone rnd laws v x Hle) as H. rewrite Hv in H.
  destruct (rnd x); simpl in *; try done. lra.
Qed.

Lemma rnd_below (v x : Q) : machine rnd v → x <= v → xle (rnd x) (Fin v).
Proof.
  intros (v' & Hv & Heq) Hle.
  pose proof (rnd_monotone rnd laws x v Hle) as H. rewrite Hv in H.
  destruct (rnd x); simpl in *; try done. lra.
Qed.

Lemma rnd_summand (x : Q) : 0 <= x → summand rnd (rnd x).
Proof.
  intros Hx. pose proof (rnd_above 0 x (rnd_0 rnd laws) Hx) as H.
  destruct (rnd x) as [y| | |] eqn:Hy; simpl in *; try done.
  split; [done|]. by apply (rnd_machine rnd laws x).
Qed.

Lemma xle_trans (a b c : xnum) : xle a b → xle b c → xle a c.
Proof.
  destruct a, b, c; simpl; try done. apply Qle_trans.
Qed.

(** Adding a kernel value keeps the sum a summand and lowers neither the sum
    nor the value. *)
Lemma xadd_summand (acc : xnum) (v : Q) :
  summand rnd acc → 0 <= v → machine rnd v →
  summand rnd (xadd rnd acc (Fin v))
  ∧ xle acc (xadd rnd acc (Fin v))
  ∧ xle (Fin v) (xadd rnd acc (Fin v)).
Proof.
  destruct acc as [a| | |]; simpl; try done.
  intros [Ha Hma] Hv Hmv. split; [|split].
  - apply rnd_summand. lra.
  - apply rnd_above; [done|lra].
  - apply rnd_above; [done|lra].
Qed.

Lemma xsum_summand (vs : list Q) :
  Forall (λ v, 0 <= v ∧ machine rnd v) vs →
  ∀ acc, summand rnd acc →
    summand rnd (foldl (xadd rnd) acc (Fin <$> vs))
    ∧ xle acc (foldl (xadd rnd) acc (Fin <$> vs))
    ∧ Forall (λ v, xle (Fin v) (foldl (xadd rnd) acc (Fin <$> vs))) vs.
Proof.
  induction 1 as [|v vs [Hv Hmv] _ IH]; intros acc Hacc.
  - split; [done|]. split; [|constructor].
    destruct acc; simpl in *; try done. lra.
  - cbn [fmap list_fmap foldl].
    destruct (xadd_summand acc v Hacc Hv Hmv) as (Hs & Hle & Hlev).
    destruct (IH _ Hs) as (Hs' & Hle' & Hall).
    split; [done|]. split; [by eapply xle_trans|].
    constructor; [by eapply xle_trans|done].
Qed.

(** The denominator: above zero and below no summand. *)
Lemma xadd_regularised (s eps : xnum) :
  summand rnd s → positive_number eps → summand rnd eps →
  positive_number (xadd rnd s eps) ∧ xle s (xadd rnd s eps).
Proof.
  destruct s as [a| | |], eps as [e| | |]; simpl; try done.
  intros [Ha Hma] He [_ Hme].
  pose proof (rnd_above e (a + e) Hme ltac:(lra)) as H1.
  pose proof (rnd_above a (a + e) Hma ltac:(lra)) as H2.
  destruct (rnd (a + e)); simpl in *; try done. split; lra.
Qed.

(** One responsibility: between 0 and 1, and 0 for a kernel value of 0. *)
Lemma xdiv_responsibility (v : Q) (d : xnum) :
  0 <= v → xle (Fin v) d → positive_number d →
  ∃ r, xdiv rnd (Fin v) d = Fin r ∧ 0 <= r ∧ r <= 1 ∧ (v == 0 → r == 0).
Proof.
  intros Hv Hle Hd. destruct d as [d| | |]; simpl in *; try done.
  2: { exists 0. repeat split; lra. }
  destruct (Qeq_bool d 0) eqn:Hz; [apply Qeq_bool_eq in Hz; lra|].
  assert (0 <= v / d) as H0 by (apply Qle_shift_div_l; lra).
  assert (v / d <= 1) as H1 by (apply Qle_shift_div_r; lra).
  pose proof (rnd_above 0 (v / d) (rnd_0 rnd laws) H0) as Ha.
  pose proof (rnd_below 1 (v / d) (rnd_1 rnd laws) H1) as Hb.
  destruct (rnd (v / d)) as [r| | |] eqn:Hr; simpl in *; try done.
  exists r. repeat split; try done.
  intros Hv0.
  assert (v / d <= 0) as H2 by (rewrite Hv0; unfold Qdiv; lra).
  pose proof (rnd_below 0 (v / d) (rnd_0 rnd laws) H2) as Hc.
  rewrite Hr in Hc. simpl in Hc. lra.
Qed.

Lemma xdiv_responsibilities (d : xnum) (vs : list Q) :
  positive_number d →
  Forall (λ v, 0 <= v ∧ xle (Fin v) d) vs →
  ∃ resp,
    Forall2 (λ v r, xdiv rnd (Fin v) d = Fin r ∧ (v == 0 → r == 0)) vs resp
    ∧ Forall (λ r, 0 <= r ∧ r <= 1) resp.
Proof.
  intros Hd. induction 1 as [|v vs [Hv Hle] _ (resp & IH1 & IH2)].
  - exists []. split; constructor.
  - destruct (xdiv_responsibility v d Hv Hle Hd) as (r & Hr & H0 & H1 & Hz).
    exists (r :: resp). split; constructor; done.
Qed.

Lemma Qsum_unit_interval (l : list Q) :
  Forall (λ r, 0 <= r ∧ r <= 1) l →
  0 <= Qsum l ∧ Qsum l <= inject_Z (Z.of_nat (length l)).
Proof.
  induction 1 as [|r l [H0 H1] _ [IH0 IH1]].
  - split; apply Qle_refl.
  - rewrite Qsum_cons. simpl length. rewrite Nat2Z.inj_succ, <-Z.add_1_r.
    rewrite inject_Z_plus. change (inject_Z 1) with 1. split; lra.
Qed.

End RoundedFacts.

Lemma finite_values {A} (f : A → xnum) (P : Q → Prop) (l : list A) :
  Forall (λ a, ∃ v, f a = Fin v ∧ P v) l →
  ∃ qs, f <$> l = Fin <$> qs ∧ Forall P qs ∧ Forall2 (λ a v, f a = Fin v) l qs.
Proof.
  induction 1 as [|a l (v & Hv & HP) _ (qs & Heq & Hall & Hrel)].
  - exists []. repeat split; constructor.
  - exists (v :: qs). cbn [fmap list_fmap]. rewrite Hv.
    fold (fmap f l). rewrite Heq. repeat split; constructor; done.
Qed.

(** C2, as amended: in floating-point arithmetic, whatever its rounding
    (monotone, exact on 0 and 1, overflowing to an infinity), for an accepted
    input with kernel values that are not below zero and a regularisation
    constant that is above zero as a number of the format, every
    responsibility is a finite number between 0 and 1, so the sum over the
    [n] kernels lies between 0 and [n]; a kernel whose value is 0 has the
    responsibility 0, and the sum is 0 when every kernel value is 0. *)
Theorem responsibilities_in_unit_interval_under_rounding
    (rnd : Q → xnum) (kernel_value : list string → xnum)
    (parseRecord : string → list string → option KernelFunctions)
    (expandFunctions :
       string → string → string → list string → keymap → list action)
    (files : gmap string (list string))
    (fuel : nat) (lab : string) (words : list string) (keys : keymap)
    (actions : list action) (data regularise : string) (rs : list string)
    (kks : list KernelFunctions) (e0 : Q) (env0 : gmap string xnum) :
  rounding rnd →
  extends_labout expandFunctions →
  accepted parseRecord files words keys data regularise rs kks →
  (length rs < fuel)%nat →
  parseDecimal regularise = Some e0 →
  positive_number (rnd e0) →
  let value := λ kk,
    kernel_value (kernel_words (getWords data data_separators) kk) in
  Forall (λ kk, ∃ v, value kk = Fin v ∧ (0 <= v)%Q ∧ machine rnd v) kks →
  ∃ acts resp,
    expandShortcut parseRecord expandFunctions files fuel lab words keys actions
    = Ok acts
    ∧ Forall2 (λ k r,
                 run_rounded rnd kernel_value env0 acts
                   !! output_label lab (k + 1) = Some (Fin r))
        (uint_range (N.of_nat (length rs))) resp
    ∧ Forall (λ r, 0 <= r ∧ r <= 1)%Q resp
    ∧ (0 <= Qsum resp)%Q
    ∧ (Qsum resp <= inject_Z (Z.of_nat (length rs)))%Q
    ∧ Forall2 (λ kk r, ∀ v, value kk = Fin v → v == 0 → r == 0)%Q kks resp
    ∧ (Forall (λ kk, ∃ v, value kk = Fin v ∧ v == 0)%Q kks →
       (Qsum resp == 0)%Q).
Proof.
  intros Hlaws Hfresh Hacc Hfuel Heps Hpos value Hvalues.
  assert (length kks = length rs) as Hlen
    by (symmetry; eapply Forall2_length, acc_records, Hacc).
  destruct (finite_values value (λ v, (0 <= v)%Q ∧ machine rnd v) kks Hvalues)
    as (qs & Hqs & Hgood & Hrel).
  assert (summand rnd (rnd e0)) as Hse.
  { destruct (rnd e0) as [e| | |] eqn:He; simpl in *; try done.
    split; [lra|]. by apply (rnd_machine rnd Hlaws e0). }
  destruct (xsum_summand rnd Hlaws qs Hgood (Fin 0)) as (Hs & _ & Hbelow).
  { split; [apply Qle_refl|apply (rnd_0 rnd Hlaws)]. }
  set (s := foldl (xadd rnd) (Fin 0) (Fin <$> qs)) in *.
  destruct (xadd_regularised rnd Hlaws s (rnd e0) Hs Hpos Hse) as (Hd & Hsd).
  set (d := xadd rnd s (rnd e0)) in *.
  destruct (xdiv_responsibilities rnd Hlaws d qs Hd) as (resp & Hresp & Hunit).
  { apply Forall_forall. intros v Hv. split.
    - by apply (proj1 (Forall_forall _ _) Hgood v Hv).
    - eapply xle_trans; [|exact Hsd].
      by apply (proj1 (Forall_forall _ _) Hbelow v Hv). }
  destruct (chain_values (Fin 0) (xadd rnd) (xdiv rnd)
              (λ s, rnd <$> parseDecimal s) kernel_value parseRecord
              expandFunctions files Hfresh fuel lab words keys actions data
              regularise rs kks (rnd e0) env0 Hacc Hfuel)
    as (acts & Hexp & _ & _ & Hout); [by rewrite Heps|].
  fold value in Hout. rewrite Hqs in Hout. fold s d in Hout.
  exists acts, resp. split; [done|].
  assert (length resp = length rs) as Hlr.
  { rewrite <-(Forall2_length _ _ _ Hresp), <-(Forall2_length _ _ _ Hrel).
    done. }
  split; [|split; [done|]].
  - apply Forall2_same_length_lookup_2.
    + rewrite length_uint_range. lia.
    + intros i k r [-> _]%uint_range_lookup Hr.
      destruct (Forall2_lookup_r _ _ _ _ _ Hresp Hr) as (v & Hv & Hdiv & _).
      unfold run_rounded.
      rewrite (proj2 (Hout i (Fin v) ltac:(by rewrite list_lookup_fmap, Hv))).
      by rewrite Hdiv.
  - destruct (Qsum_unit_interval resp Hunit) as [H0 H1].
    rewrite Hlr in H1. split; [done|]. split; [done|].
    assert (Forall2 (λ kk r, ∀ v, value kk = Fin v → v == 0 → r == 0)%Q
              kks resp) as Hzero.
    { apply Forall2_same_length_lookup_2; [lia|].
      intros i kk r Hkk Hr v0 Hval Hv0.
      destruct (Forall2_lookup_r _ _ _ _ _ Hresp Hr) as (v & Hv & _ & Hz).
      destruct (Forall2_lookup_l _ _ _ _ _ Hrel Hkk) as (v' & Hv' & Heq).
      assert (v = v') as -> by congruence.
      apply Hz. rewrite Hval in Heq. by injection Heq as <-. }
    split; [done|].
    intros Hall. apply Qsum_zero.
    apply Forall_forall. intros r [i Hr]%list_elem_of_lookup_1.
    destruct (Forall2_lookup_r _ _ _ _ _ Hresp Hr) as (v & Hv & _ & Hz).
    destruct (Forall2_lookup_r _ _ _ _ _ Hrel Hv) as (kk & Hkk & Heq).
    apply Hz.
    destruct (proj1 (Forall_forall _ _) Hall kk) as (v' & Hv' & Hv0).
    { by eapply list_elem_of_lookup_2. }
    rewrite Heq in Hv'. injection Hv' as ->. done.
Qed.

(** Rounding that changes nothing is a rounding. *)
Lemma exact_rounding : rounding Fin.
Proof.
  split.
  - intros x y Hxy. exact Hxy.
  - exists 0%Q. split; reflexivity.
  - exists 1%Q. split; reflexivity.
  - intros x y _. exists y. split; reflexivity.
Defined.

Lemma responsibilities_in_unit_interval_under_rounding_witness :
  ∃ acts resp,
    Manual.expanded = Ok acts
    ∧ Forall2 (λ k r,
                 run_rounded Fin (λ a, Fin (Manual.near_first a)) ∅ acts
                   !! output_label "p" (k + 1) = Some (Fin r))
        (uint_range (N.of_nat 2)) resp
    ∧ Forall (λ r, 0 <= r ∧ r <= 1)%Q resp
    ∧ (0 <= Qsum resp)%Q
    ∧ (Qsum resp <= inject_Z (Z.of_nat 2))%Q
    ∧ Forall2 (λ kk r, ∀ v,
                 Fin (Manual.near_first
                        (kernel_words (getWords "phi,psi" data_separators) kk))
                 = Fin v → v == 0 → r == 0)%Q Manual.kernels resp
    ∧ (Forall (λ kk, ∃ v,
                 Fin (Manual.near_first
                        (kernel_words (getWords "phi,psi" data_separators) kk))
                 = Fin v ∧ v == 0)%Q Manual.kernels →
       (Qsum resp == 0)%Q).
Proof.
  apply (responsibilities_in_unit_interval_under_rounding Fin
           (λ a, Fin (Manual.near_first a)) Manual.parse Manual.no_functions
           Manual.files 3 "p" Manual.words Manual.keys [] "phi,psi" "0.001"
           ["k1"; "k2"] Manual.kernels (0 + (1 # 1000))%Q ∅).
  - apply exact_rounding.
  - apply no_functions_extend.
  - apply manual_accepted.
  - simpl. lia.
  - reflexivity.
  - reflexivity.
  - repeat constructor.
    + exists (3 # 4)%Q. split; [reflexivity|]. split; [discriminate|].
      exists (3 # 4)%Q. split; reflexivity.
    + exists (1 # 4)%Q. split; [reflexivity|]. split; [discriminate|].
      exists (1 # 4)%Q. split; reflexivity.
Defined.

(** ** The same chain in binary64 *)

(** In binary64 the bound 1 does not survive rounding: kernels that evaluate
    to 2, 4, 3 and 1 with REGULARISE=0.0000000000000000001 publish the
    doubles nearest to 0.2, 0.4, 0.3 and 0.1, whose exact sum is
    1 + 2^-55. *)
Example double_sum_exceeds_1 :
  ∃ acts resp,
    expandShortcut Manual.parse Manual.no_functions Double.files 5 "p"
      Manual.words (Double.keys "0.0000000000000000001") [] = Ok acts
    ∧ Double.responsibilities (Double.run Double.kernel_value ∅ acts) "p" 4
      = Some resp
    ∧ (Qsum resp == 1 + (1 # 2 ^ 55))%Q.
Proof.
  eexists _, _. split; [reflexivity|]. split; [vm_compute; reflexivity|].
  vm_compute. reflexivity.
Qed.

(** In binary64 a positive kernel value does not keep the sum above 0: one
    kernel that evaluates to the smallest positive double, with
    REGULARISE=10, has the responsibility 0. *)
Example double_sum_underflows_to_0 :
  ∃ acts resp,
    expandShortcut Manual.parse Manual.no_functions
      {[ "clusters.dat" := ["k1"] ]} 2 "p" Manual.words (Double.keys "10") []
    = Ok acts
    ∧ Double.responsibilities (Double.run (λ _, Double.smallest) ∅ acts) "p" 1
      = Some resp
    ∧ (∃ v, Double.to_Q Double.smallest = Some v ∧ (0 < v)%Q)
    ∧ (Qsum resp == 0)%Q.
Proof.
  eexists _, _. split; [reflexivity|]. split; [vm_compute; reflexivity|].
  split; [|vm_compute; reflexivity].
  eexists. split; [reflexivity|]. vm_compute. reflexivity.
Qed.

(** Scenario C of the spec in binary64: both kernels evaluate to 0 and the
    constant is 0.001; the denominator is the double nearest to 0.001 and
    both responsibilities are 0. *)
Example double_scenario_C :
  ∃ acts,
    Manual.expanded = Ok acts
    ∧ Double.run (λ _, Double.zero) ∅ acts !! "p_rksum"
      = Some (Double.of_Q (1 # 1000))
    ∧ Double.responsibilities (Double.run (λ _, Double.zero) ∅ acts) "p" 2
      = Some [0%Q; 0%Q].
Proof.
  eexists. split; [reflexivity|]. split; vm_compute; reflexivity.
Qed.

(** * Further properties of the expansion *)

(** ** When the expansion returns and when it fails *)

Section Outcomes.

Variable parseRecord : string → list string → option KernelFunctions.
Variable expandFunctions :
  string → string → string → list string → keymap → list action.
Variable files : gmap string (list string).

Lemma accepted_readable (words : list string) (keys : keymap)
    (data regularise : string) (rs : list string) (kks : list KernelFunctions) :
  accepted parseRecord files words keys data regularise rs kks →
  readable parseRecord files words keys data regularise rs kks.
Proof. intros [? ? ? ? ? ?]. by split. Qed.

(** A loop that returns has read every record. *)
Lemma kernel_loop_Ok_reads (lab : string) (valnames : list string) :
  ∀ (fuel : nat) (k nkernels : N) (rs : list string) (actions : list action)
    (res : IFile * list action * N),
    kernel_loop parseRecord fuel lab valnames k {| records := rs |} actions
      nkernels = Ok res →
    (length rs < fuel)%nat
    ∧ ∃ kks, Forall2 (λ r kk, parseRecord r valnames = Some kk) rs kks.
Proof.
  induction fuel as [|fuel IH]; intros k nkernels rs actions res; [done|].
  cbn [kernel_loop]. unfold KernelFunctions_read. cbn [records].
  destruct rs as [|r rs]; cbn [obind].
  { intros _. split; [simpl; lia|]. exists []. constructor. }
  destruct (parseRecord r valnames) as [kk|] eqn:Hr; [|done].
  cbn [obind]. unfold scanField. cbn [records tail].
  intros (Hlen & kks & Hkks)%IH. split; [simpl; lia|].
  exists (kk :: kks). by constructor.
Qed.

(** A record the reader rejects ends the loop with the exception. *)
Lemma kernel_loop_rejects (lab : string) (valnames : list string) :
  ∀ (rs : list string) (fuel : nat) (k nkernels : N) (actions : list action),
    Exists (λ r, parseRecord r valnames = None) rs →
    (length rs < fuel)%nat →
    kernel_loop parseRecord fuel lab valnames k {| records := rs |} actions
      nkernels = PlumedError.
Proof.
  induction rs as [|r rs IH]; intros fuel k nkernels actions Hex Hfuel.
  { by apply Exists_nil in Hex. }
  destruct fuel as [|fuel]; [lia|].
  cbn [kernel_loop]. unfold KernelFunctions_read. cbn [records].
  destruct (parseRecord r valnames) as [kk|] eqn:Hr; [|done].
  cbn [obind]. unfold scanField. cbn [records tail].
  apply IH; [|simpl in Hfuel; lia].
  apply Exists_cons in Hex as [Hex|Hex]; [congruence|done].
Qed.

Lemma all_read_Forall2 (data : string) (rs : list string) :
  all_read parseRecord data rs
  ↔ ∃ kks,
      Forall2 (λ r kk, parseRecord r (getWords data data_separators) = Some kk)
        rs kks.
Proof.
  unfold all_read. split.
  - induction 1 as [|r rs [kk Hr] _ [kks IH]]; [by exists []|].
    exists (kk :: kks). by constructor.
  - intros [kks H]. induction H as [|r kk rs kks Hr _ IH]; constructor; eauto.
Qed.

Lemma not_all_read (valnames : list string) (rs : list string) :
  ¬ Forall (λ r, is_Some (parseRecord r valnames)) rs →
  Exists (λ r, parseRecord r valnames = None) rs.
Proof.
  intros H. apply not_Forall_Exists in H; [|intros r; apply _].
  eapply Exists_impl; [exact H|]. intros r Hr. simpl in Hr.
  destruct (parseRecord r valnames); [|done]. destruct Hr. eauto.
Qed.

(** The result of the expansion for an input it gets through, with the
    counters as the [unsigned] they are. *)
Lemma expandShortcut_readable (fuel : nat) (lab : string) (words : list string)
    (keys : keymap) (actions : list action) (data regularise : string)
    (rs : list string) (kks : list KernelFunctions) :
  readable parseRecord files words keys data regularise rs kks →
  (length rs < fuel)%nat →
  ∃ pushed,
    expandShortcut parseRecord expandFunctions files fuel lab words keys actions
    = Ok (actions ++ pushed
            ++ [ksum_action lab (u32 (N.of_nat (length rs)));
                minput lab regularise]
            ++ responsibility_actions expandFunctions lab words keys
                 (u32 (N.of_nat (length rs))))
    ∧ Forall2 (λ a kk,
                 ∃ num, a = kinput lab (getWords data data_separators) num kk)
        pushed kks.
Proof.
  intros [Hw Hd (fname & Hc & Hfile) Hreg Hrs] Hfuel.
  destruct (kernel_loop_terminates parseRecord lab
              (getWords data data_separators) rs kks Hrs fuel 0 0 actions Hfuel)
    as (pushed & Hloop & Hpushed); [done|].
  exists pushed. split; [|done].
  unfold expandShortcut. rewrite Hw. cbn [obind].
  unfold find_second. rewrite Hd, Hc. cbn [obind].
  rewrite bool_decide_eq_true_2 by done. cbn [plumed_assert obind].
  unfold IFile_open. rewrite Hfile. cbn [obind].
  rewrite Hloop. cbn [obind]. rewrite N.add_0_l, Hreg. cbn [obind].
  rewrite cinput_closed by apply u32_bound.
  rewrite responsibility_loop_closed.
  - unfold responsibility_actions. by rewrite <-!app_assoc.
  - apply Forall_forall. intros k Hk%elem_of_uint_range.
    pose proof (u32_bound (N.of_nat (length rs))). lia.
Qed.

(** An expansion that returns was given an input it gets through. *)
Lemma expandShortcut_Ok_readable (fuel : nat) (lab : string)
    (words : list string) (keys : keymap) (actions acts : list action) :
  expandShortcut parseRecord expandFunctions files fuel lab words keys actions
  = Ok acts →
  ∃ data regularise rs kks,
    readable parseRecord files words keys data regularise rs kks
    ∧ (length rs < fuel)%nat.
Proof.
  unfold expandShortcut, words_0, find_second, IFile_open.
  destruct words as [|w ws]; [done|]. cbn [obind].
  destruct (bool_decide (w = "PAMM")) eqn:Hw; [|done].
  apply bool_decide_eq_true in Hw as ->. cbn [plumed_assert obind].
  destruct (keys !! "DATA") as [data|] eqn:Hd; [|done]. cbn [obind].
  destruct (keys !! "CLUSTERS") as [fname|] eqn:Hc; [|done]. cbn [obind].
  destruct (files !! fname) as [rs|] eqn:Hf; [|done]. cbn [obind].
  destruct (kernel_loop _ _ _ _ _ _ _ _) as [[[ifile acts'] n]| | |] eqn:Hloop;
    try done.
  cbn [obind].
  destruct (keys !! "REGULARISE") as [regularise|] eqn:Hr; [|done].
  intros _. apply kernel_loop_Ok_reads in Hloop as (Hlen & kks & Hkks).
  exists data, regularise, rs, kks. split; [|done].
  split; try done. by exists fname.
Qed.

(** With enough fuel the outcome is the one the checks give, taken in the
    order of the code. *)
Lemma expandShortcut_diagnose (fuel : nat) (lab : string) (words : list string)
    (keys : keymap) (actions : list action) :
  fuel_covers files fuel keys →
  forget (expandShortcut parseRecord expandFunctions files fuel lab words keys
            actions)
  = diagnose parseRecord files words keys.
Proof.
  intros Hfuel. unfold diagnose.
  destruct words as [|w ws]; [done|].
  destruct (decide (w = "PAMM")) as [->|Hw].
  2: { unfold expandShortcut. cbn [words_0 obind].
       by rewrite bool_decide_eq_false_2. }
  destruct (keys !! "DATA") as [data|] eqn:Hd.
  2: { unfold expandShortcut, find_second. cbn [words_0 obind].
       rewrite bool_decide_eq_true_2 by done. cbn [plumed_assert obind].
       by rewrite Hd. }
  destruct (keys !! "CLUSTERS") as [fname|] eqn:Hc.
  2: { unfold expandShortcut, find_second. cbn [words_0 obind].
       rewrite bool_decide_eq_true_2 by done. cbn [plumed_assert obind].
       by rewrite Hd, Hc. }
  destruct (files !! fname) as [rs|] eqn:Hf.
  2: { unfold expandShortcut, find_second, IFile_open. cbn [words_0 obind].
       rewrite bool_decide_eq_true_2 by done. cbn [plumed_assert obind].
       rewrite Hd, Hc. cbn [obind]. by rewrite Hf. }
  assert (length rs < fuel)%nat as Hlen by (apply Hfuel; by exists fname).
  destruct (decide (Forall _ rs)) as [Hall|Hnot].
  - apply (all_read_Forall2 data rs) in Hall as [kks Hkks].
    destruct (keys !! "REGULARISE") as [regularise|] eqn:Hr.
    + destruct (expandShortcut_readable fuel lab ("PAMM" :: ws) keys actions
                  data regularise rs kks) as (pushed & -> & _); [|done..].
      split; try done. by exists fname.
    + destruct (kernel_loop_terminates parseRecord lab
                  (getWords data data_separators) rs kks Hkks fuel 0 0 actions
                  Hlen) as (pushed & Hloop & _); [done|].
      unfold expandShortcut, find_second, IFile_open. cbn [words_0 obind].
      rewrite bool_decide_eq_true_2 by done. cbn [plumed_assert obind].
      rewrite Hd, Hc. cbn [obind]. rewrite Hf. cbn [obind].
      rewrite Hloop. cbn [obind]. by rewrite Hr.
  - apply not_all_read in Hnot.
    unfold expandShortcut, find_second, IFile_open. cbn [words_0 obind].
    rewrite bool_decide_eq_true_2 by done. cbn [plumed_assert obind].
    rewrite Hd, Hc. cbn [obind]. rewrite Hf. cbn [obind].
    by rewrite (kernel_loop_rejects lab _ rs fuel 0 0 actions Hnot Hlen).
Qed.

Lemma forget_Ok {A} (x : outcome A) : is_Ok x = true ↔ forget x = Ok ().
Proof. destruct x; simpl; split; congruence. Qed.

Lemma forget_PlumedError {A} (x : outcome A) :
  x = PlumedError ↔ forget x = PlumedError.
Proof. destruct x; simpl; split; congruence. Qed.

Lemma forget_Undefined {A} (x : outcome A) :
  x = Undefined ↔ forget x = Undefined.
Proof. destruct x; simpl; split; congruence. Qed.

End Outcomes.

(** X1: given fuel for the file the keywords name, the expansion returns
    exactly when the directive is [PAMM], the keywords DATA, CLUSTERS and
    REGULARISE are set, the kernel file can be opened, and the reader accepts
    every one of its records. *)
Theorem expandShortcut_returns_iff
    (parseRecord : string → list string → option KernelFunctions)
    (expandFunctions :
       string → string → string → list string → keymap → list action)
    (files : gmap string (list string))
    (fuel : nat) (lab : string) (words : list string) (keys : keymap)
    (actions : list action) :
  fuel_covers files fuel keys →
  is_Ok (expandShortcut parseRecord expandFunctions files fuel lab words keys
           actions) = true
  ↔ words_0 words = Ok "PAMM"
    ∧ is_Some (keys !! "REGULARISE")
    ∧ ∃ data rs,
        keys !! "DATA" = Some data ∧ opens files keys rs
        ∧ all_read parseRecord data rs.
Proof.
  intros Hfuel. rewrite forget_Ok, (expandShortcut_diagnose _ _ _ _ _ _ _ _ Hfuel).
  unfold diagnose, opens, all_read, words_0. split.
  - repeat case_match; try done. subst. intros _.
    split; [done|]. split; [done|]. eauto 10.
  - intros (Hw & [reg Hreg] & data & rs & Hd & (fname & Hc & Hf) & Hall).
    destruct words as [|w ws]; [done|]. injection Hw as ->.
    rewrite decide_True, Hd, Hc, Hf, decide_True, Hreg by done. done.
Qed.

Lemma manual_fuel_covers : fuel_covers Manual.files 3 Manual.keys.
Proof.
  intros rs (fname & Hc & Hf). vm_compute in Hc. injection Hc as <-.
  vm_compute in Hf. injection Hf as <-. simpl. lia.
Defined.

Lemma expandShortcut_returns_iff_witness :
  is_Ok Manual.expanded = true
  ↔ words_0 Manual.words = Ok "PAMM"
    ∧ is_Some (Manual.keys !! "REGULARISE")
    ∧ ∃ data rs,
        Manual.keys !! "DATA" = Some data ∧ opens Manual.files Manual.keys rs
        ∧ all_read Manual.parse data rs.
Proof.
  apply (expandShortcut_returns_iff Manual.parse Manual.no_functions
           Manual.files 3 "p" Manual.words Manual.keys []).
  apply manual_fuel_covers.
Defined.

(** X2: given fuel for the file the keywords name, the expansion raises the
    PLUMED exception exactly when the directive is not [PAMM], or when the
    directive is [PAMM], DATA and CLUSTERS are set, and the kernel file
    cannot be opened or holds a record the reader rejects. *)
Theorem expandShortcut_throws_iff
    (parseRecord : string → list string → option KernelFunctions)
    (expandFunctions :
       string → string → string → list string → keymap → list action)
    (files : gmap string (list string))
    (fuel : nat) (lab : string) (words : list string) (keys : keymap)
    (actions : list action) :
  fuel_covers files fuel keys →
  expandShortcut parseRecord expandFunctions files fuel lab words keys actions
  = PlumedError
  ↔ (∃ w ws, words = w :: ws ∧ w ≠ "PAMM")
    ∨ (words_0 words = Ok "PAMM"
       ∧ ∃ data fname,
           keys !! "DATA" = Some data ∧ keys !! "CLUSTERS" = Some fname
           ∧ (files !! fname = None
              ∨ ∃ rs, files !! fname = Some rs
                      ∧ ¬ all_read parseRecord data rs)).
Proof.
  intros Hfuel.
  rewrite forget_PlumedError, (expandShortcut_diagnose _ _ _ _ _ _ _ _ Hfuel).
  unfold diagnose, all_read, words_0. split.
  - destruct words as [|w ws]; [done|].
    destruct (decide (w = "PAMM")) as [->|Hw]; [|by left; eauto].
    destruct (keys !! "DATA") as [data|]; [|done].
    destruct (keys !! "CLUSTERS") as [fname|]; [|done].
    intros H. right. split; [done|]. exists data, fname.
    split; [done|]. split; [done|].
    destruct (files !! fname) as [rs|]; [|by left].
    right. exists rs. split; [done|].
    destruct (decide (Forall _ rs)); [|done].
    destruct (keys !! "REGULARISE"); done.
  - intros [(w & ws & -> & Hw)|(Hw & data & fname & Hd & Hc & Hrs)].
    + by rewrite decide_False.
    + destruct words as [|w ws]; [done|]. injection Hw as ->.
      rewrite decide_True, Hd, Hc by done.
      destruct Hrs as [->|(rs & -> & Hnot)]; [done|].
      by rewrite decide_False.
Qed.

(** A file whose second record the reader rejects. *)
Lemma expandShortcut_throws_iff_witness :
  expandShortcut Manual.parse Manual.no_functions
    {[ "clusters.dat" := ["k1"; ""; "k3"] ]} 4 "p" Manual.words Manual.keys []
  = PlumedError
  ↔ (∃ w ws, Manual.words = w :: ws ∧ w ≠ "PAMM")
    ∨ (words_0 Manual.words = Ok "PAMM"
       ∧ ∃ data fname,
           Manual.keys !! "DATA" = Some data
           ∧ Manual.keys !! "CLUSTERS" = Some fname
           ∧ (({[ "clusters.dat" := ["k1"; ""; "k3"] ]}
                 : gmap string (list string)) !! fname = None
              ∨ ∃ rs, ({[ "clusters.dat" := ["k1"; ""; "k3"] ]}
                         : gmap string (list string)) !! fname = Some rs
                      ∧ ¬ all_read Manual.parse data rs)).
Proof.
  apply (expandShortcut_throws_iff Manual.parse Manual.no_functions
           {[ "clusters.dat" := ["k1"; ""; "k3"] ]} 4 "p" Manual.words
           Manual.keys []).
  intros rs (fname & Hc & Hf). vm_compute in Hc. injection Hc as <-.
  vm_compute in Hf. injection Hf as <-. simpl. lia.
Defined.

(** X3: given fuel for the file the keywords name, the expansion runs into
    undefined behaviour exactly when the vector of words is empty, or when
    the directive is [PAMM] and DATA is not set, or CLUSTERS is not set, or
    the whole file was read and REGULARISE is not set: no check guards the
    dereferenced [keys.find(...)]. *)
Theorem expandShortcut_undefined_iff
    (parseRecord : string → list string → option KernelFunctions)
    (expandFunctions :
       string → string → string → list string → keymap → list action)
    (files : gmap string (list string))
    (fuel : nat) (lab : string) (words : list string) (keys : keymap)
    (actions : list action) :
  fuel_covers files fuel keys →
  expandShortcut parseRecord expandFunctions files fuel lab words keys actions
  = Undefined
  ↔ words = []
    ∨ (words_0 words = Ok "PAMM"
       ∧ (keys !! "DATA" = None
          ∨ (is_Some (keys !! "DATA") ∧ keys !! "CLUSTERS" = None)
          ∨ (keys !! "REGULARISE" = None
             ∧ ∃ data rs,
                 keys !! "DATA" = Some data ∧ opens files keys rs
                 ∧ all_read parseRecord data rs))).
Proof.
  intros Hfuel.
  rewrite forget_Undefined, (expandShortcut_diagnose _ _ _ _ _ _ _ _ Hfuel).
  unfold diagnose, all_read, opens, words_0. split.
  - destruct words as [|w ws]; [by left|].
    destruct (decide (w = "PAMM")) as [->|Hw]; [|done].
    intros H. right. split; [done|].
    destruct (keys !! "DATA") as [data|]; [|by left].
    destruct (keys !! "CLUSTERS") as [fname|]; [|by right; left].
    destruct (files !! fname) as [rs|] eqn:Hf; [|done].
    destruct (decide (Forall _ rs)); [|done].
    destruct (keys !! "REGULARISE"); [done|].
    right. right. split; [done|]. exists data, rs. eauto.
  - intros [->|(Hw & Hcases)]; [done|].
    destruct words as [|w ws]; [done|]. injection Hw as ->.
    rewrite decide_True by done.
    destruct Hcases as [->|[[[data ->] ->]|(Hr & data & rs & -> & (fname & -> & ->) & Hall)]];
      [done..|].
    by rewrite decide_True, Hr.
Qed.

(** The caller leaves out DATA. *)
Lemma expandShortcut_undefined_iff_witness :
  expandShortcut Manual.parse Manual.no_functions Manual.files 3 "p"
    Manual.words (delete "DATA" Manual.keys) [] = Undefined
  ↔ Manual.words = []
    ∨ (words_0 Manual.words = Ok "PAMM"
       ∧ (delete "DATA" Manual.keys !! "DATA" = None
          ∨ (is_Some (delete "DATA" Manual.keys !! "DATA")
             ∧ delete "DATA" Manual.keys !! "CLUSTERS" = None)
          ∨ (delete "DATA" Manual.keys !! "REGULARISE" = None
             ∧ ∃ data rs,
                 delete "DATA" Manual.keys !! "DATA" = Some data
                 ∧ opens Manual.files (delete "DATA" Manual.keys) rs
                 ∧ all_read Manual.parse data rs))).
Proof.
  apply (expandShortcut_undefined_iff Manual.parse Manual.no_functions
           Manual.files 3 "p" Manual.words (delete "DATA" Manual.keys) []).
  intros rs (fname & Hc & Hf). vm_compute in Hc. injection Hc as <-.
  vm_compute in Hf. injection Hf as <-. simpl. lia.
Defined.

(** The three ways to fail, on the manual's example. *)
Example manual_without_DATA :
  expandShortcut Manual.parse Manual.no_functions Manual.files 3 "p"
    Manual.words (delete "DATA" Manual.keys) [] = Undefined.
Proof. reflexivity. Qed.

Example manual_rejected_record :
  expandShortcut Manual.parse Manual.no_functions
    {[ "clusters.dat" := ["k1"; ""; "k3"] ]} 4 "p" Manual.words Manual.keys []
  = PlumedError.
Proof. reflexivity. Qed.

Example manual_without_file :
  expandShortcut Manual.parse Manual.no_functions ∅ 1 "p" Manual.words
    Manual.keys [] = PlumedError.
Proof. reflexivity. Qed.

(** ** What the expansion adds *)

(** X4: whenever the expansion returns, it has only appended to the vector
    it was given: one KERNEL action per record of the file, in file order,
    then the COMBINE action and the regularised sum, then the
    responsibilities; the COMBINE arguments and the responsibilities cover
    the first [n mod 2^32] kernels, [n] being the number of records, because
    the counter is an [unsigned]. *)
Theorem expandShortcut_only_appends
    (parseRecord : string → list string → option KernelFunctions)
    (expandFunctions :
       string → string → string → list string → keymap → list action)
    (files : gmap string (list string))
    (fuel : nat) (lab : string) (words : list string) (keys : keymap)
    (actions acts : list action) :
  expandShortcut parseRecord expandFunctions files fuel lab words keys actions
  = Ok acts →
  ∃ data regularise rs kks pushed,
    readable parseRecord files words keys data regularise rs kks
    ∧ Forall2 (λ a kk,
                 ∃ num, a = kinput lab (getWords data data_separators) num kk)
        pushed kks
    ∧ acts = actions ++ pushed
               ++ [ksum_action lab (u32 (N.of_nat (length rs)));
                   minput lab regularise]
               ++ responsibility_actions expandFunctions lab words keys
                    (u32 (N.of_nat (length rs))).
Proof.
  intros Hok.
  destruct (expandShortcut_Ok_readable _ _ _ _ _ _ _ _ _ Hok)
    as (data & regularise & rs & kks & Hread & Hlen).
  destruct (expandShortcut_readable parseRecord expandFunctions files fuel lab
              words keys actions data regularise rs kks Hread Hlen)
    as (pushed & Heq & Hpushed).
  exists data, regularise, rs, kks, pushed. split; [done|]. split; [done|].
  congruence.
Qed.

Lemma expandShortcut_only_appends_witness :
  ∃ data regularise rs kks pushed,
    readable Manual.parse Manual.files Manual.words
      (<["MEAN" := ""]> Manual.keys) data regularise rs kks
    ∧ Forall2 (λ a kk,
                 ∃ num, a = kinput "p" (getWords data data_separators) num kk)
        pushed kks
    ∧ [["p_kernel-1:"; "KERNEL"; "NORMALIZED"; "ARG1=phi"; "ARG2=psi";
        "KERNEL=k1"];
       ["p_kernel-2:"; "KERNEL"; "NORMALIZED"; "ARG1=phi"; "ARG2=psi";
        "KERNEL=k2"];
       ["p_ksum:"; "COMBINE"; "ARG1=p_kernel-1"; "ARG2=p_kernel-2";
        "PERIODIC=NO"];
       ["p_rksum:"; "MATHEVAL"; "ARG1=p_ksum"; "FUNC=x+0.001"; "PERIODIC=NO"];
       ["p-1:"; "MATHEVAL"; "ARG1=p_kernel-1"; "ARG2=p_rksum"; "FUNC=x/y";
        "PERIODIC=NO"];
       ["p-1_mean:"; "MEAN"; "ARG=p-1"];
       ["p-2:"; "MATHEVAL"; "ARG1=p_kernel-2"; "ARG2=p_rksum"; "FUNC=x/y";
        "PERIODIC=NO"];
       ["p-2_mean:"; "MEAN"; "ARG=p-2"]]
      = [] ++ pushed
           ++ [ksum_action "p" (u32 (N.of_nat (length rs)));
               minput "p" regularise]
           ++ responsibility_actions Manual.mean_function "p" Manual.words
                (<["MEAN" := ""]> Manual.keys) (u32 (N.of_nat (length rs))).
Proof.
  apply (expandShortcut_only_appends Manual.parse Manual.mean_function
           Manual.files 3 "p" Manual.words (<["MEAN" := ""]> Manual.keys) []).
  reflexivity.
Defined.

(** X5: a kernel file without records is no error: the expansion appends the
    COMBINE action without any argument and the regularised sum, and
    nothing else, neither a KERNEL action nor a responsibility. *)
Theorem expandShortcut_empty_file
    (parseRecord : string → list string → option KernelFunctions)
    (expandFunctions :
       string → string → string → list string → keymap → list action)
    (files : gmap string (list string))
    (fuel : nat) (lab : string) (words : list string) (keys : keymap)
    (actions : list action) (data regularise : string) :
  readable parseRecord files words keys data regularise [] [] →
  (0 < fuel)%nat →
  expandShortcut parseRecord expandFunctions files fuel lab words keys actions
  = Ok (actions
          ++ [[lab +:+ "_ksum:"; "COMBINE"; "PERIODIC=NO"];
              [lab +:+ "_rksum:"; "MATHEVAL"; "ARG1=" +:+ lab +:+ "_ksum";
               "FUNC=x+" +:+ regularise; "PERIODIC=NO"]]).
Proof.
  intros Hread Hfuel.
  destruct (expandShortcut_readable parseRecord expandFunctions files fuel lab
              words keys actions data regularise [] [] Hread Hfuel)
    as (pushed & -> & Hpushed).
  apply Forall2_nil_inv_r in Hpushed as ->. done.
Qed.

Lemma expandShortcut_empty_file_witness :
  expandShortcut Manual.parse Manual.mean_function {[ "clusters.dat" := [] ]}
    1 "p" Manual.words (<["MEAN" := ""]> Manual.keys)
    [["phi:"; "TORSIONS"]]
  = Ok ([["phi:"; "TORSIONS"]]
          ++ [["p" +:+ "_ksum:"; "COMBINE"; "PERIODIC=NO"];
              ["p" +:+ "_rksum:"; "MATHEVAL"; "ARG1=" +:+ "p" +:+ "_ksum";
               "FUNC=x+" +:+ "0.001"; "PERIODIC=NO"]]).
Proof.
  apply (expandShortcut_empty_file Manual.parse Manual.mean_function
           {[ "clusters.dat" := [] ]} 1 "p" Manual.words
           (<["MEAN" := ""]> Manual.keys) [["phi:"; "TORSIONS"]] "phi,psi"
           "0.001").
  - split; try reflexivity.
    + exists "clusters.dat". split; reflexivity.
    + constructor.
  - lia.
Defined.

(** ** What the expansion reads *)

Lemma foldl_ext_in {A B} (f g : A → B → A) (l : list B) (a : A) :
  (∀ a b, b ∈ l → f a b = g a b) → foldl f a l = foldl g a l.
Proof.
  revert a. induction l as [|b l IH]; intros a0 H; [done|].
  simpl. rewrite (H a0 b) by left. apply IH. intros a' b' Hb'. apply H. by right.
Qed.

(** X8: of its words the expansion reads the first only, and of its keywords
    DATA, CLUSTERS and REGULARISE only; the rest reaches the result through
    [expandFunctions] alone. Two calls that agree on these and on what
    [expandFunctions] returns have the same outcome. *)
Theorem expandShortcut_reads_three_keywords
    (parseRecord : string → list string → option KernelFunctions)
    (expandFunctions :
       string → string → string → list string → keymap → list action)
    (files : gmap string (list string))
    (fuel : nat) (lab : string) (words words' : list string)
    (keys keys' : keymap) (actions : list action) :
  words_0 words = words_0 words' →
  keys !! "DATA" = keys' !! "DATA" →
  keys !! "CLUSTERS" = keys' !! "CLUSTERS" →
  keys !! "REGULARISE" = keys' !! "REGULARISE" →
  (∀ labout argin weights,
     expandFunctions labout argin weights words keys
     = expandFunctions labout argin weights words' keys') →
  expandShortcut parseRecord expandFunctions files fuel lab words keys actions
  = expandShortcut parseRecord expandFunctions files fuel lab words' keys'
      actions.
Proof.
  intros Hw Hd Hc Hr Hf. unfold expandShortcut, find_second.
  rewrite Hw, Hd, Hc, Hr.
  destruct (words_0 words'); try done. cbn [obind].
  destruct (plumed_assert _); try done. cbn [obind].
  destruct (keys' !! "DATA"); try done. cbn [obind].
  destruct (keys' !! "CLUSTERS"); try done. cbn [obind].
  destruct (IFile_open _ _); try done. cbn [obind].
  destruct (kernel_loop _ _ _ _ _ _ _ _) as [[[ifile acts] n]| | |]; try done.
  cbn [obind]. destruct (keys' !! "REGULARISE"); try done. cbn [obind].
  f_equal. apply foldl_ext_in. intros acc k _.
  unfold responsibility_step. by rewrite Hf.
Qed.

(** Options and words the expansion has no use for change nothing. *)
Lemma expandShortcut_reads_three_keywords_witness :
  expandShortcut Manual.parse Manual.no_functions Manual.files 3 "p"
    Manual.words Manual.keys []
  = expandShortcut Manual.parse Manual.no_functions Manual.files 3 "p"
      ["PAMM"; "NOPBC"] (<["LABEL" := "p"]> Manual.keys) [].
Proof.
  apply (expandShortcut_reads_three_keywords Manual.parse Manual.no_functions
           Manual.files 3 "p" Manual.words ["PAMM"; "NOPBC"] Manual.keys
           (<["LABEL" := "p"]> Manual.keys) []); reflexivity.
Defined.

(** ** The node count on a missing argument *)

(** X9: [getNumberOfNodes] makes no check of its own: it indexes the
    arguments and the shape, so it is undefined exactly when the object has
    no argument or its first argument has an empty shape, and it never
    raises the PLUMED exception. *)
Theorem getNumberOfNodes_unchecked (c : ClusteringBase) :
  (getNumberOfNodes c = Undefined
   ↔ arguments c = []
     ∨ ∃ v rest, arguments c = v :: rest ∧ getShape v = [])
  ∧ getNumberOfNodes c ≠ PlumedError
  ∧ getNumberOfNodes c ≠ OutOfFuel.
Proof.
  unfold getNumberOfNodes, getPntrToArgument.
  destruct (arguments c) as [|v rest]; simpl.
  { repeat split; try done. by left. }
  destruct (getShape v) as [|n dims] eqn:Hs; simpl.
  - repeat split; try done. intros _. right. by exists v, rest.
  - repeat split; try done. intros [?|(v' & rest' & [= <- _] & Hs')]; [done|].
    congruence.
Qed.

(** ** The words of a KERNEL action *)

Lemma length_arg_loop (valnames : list string) :
  ∀ j, length (arg_loop j valnames) = length valnames.
Proof. induction valnames as [|v rest IH]; intros j; simpl; auto. Qed.

Lemma arg_loop_lookup (valnames : list string) :
  ∀ (j : N) (i : nat) (v : string),
    j + N.of_nat (length valnames) < 2 ^ 32 →
    valnames !! i = Some v →
    arg_loop j valnames !! i
    = Some ("ARG" +:+ convert (j + N.of_nat i + 1) +:+ "=" +:+ v).
Proof.
  induction valnames as [|v0 rest IH]; intros j i v Hj Hi; [done|].
  simpl length in Hj. cbn [arg_loop]. rewrite u32_small by lia.
  destruct i as [|i].
  - injection Hi as ->. simpl. by rewrite N.add_0_r.
  - change ((v0 :: rest) !! S i) with (rest !! i) in Hi.
    change (rest !! i = Some v) in Hi.
    match goal with
    | |- (?x :: ?l) !! S i = _ => change (l !! i = Some
        ("ARG" +:+ convert (j + N.of_nat (S i) + 1) +:+ "=" +:+ v))
    end.
    rewrite (IH (j + 1) i v); [|lia|done].
    replace (j + 1 + N.of_nat i + 1) with (j + N.of_nat (S i) + 1) by lia.
    done.
Qed.

Lemma ARG_key_inj (m n : N) :
  "ARG" +:+ convert m = "ARG" +:+ convert n → m = n.
Proof. intros H%(inj (String.app "ARG")). by apply convert_inj. Qed.

Lemma arg_loop_keyword (valnames tail : list string) :
  ∀ (j : N) (i : nat) (v : string),
    j + N.of_nat (length valnames) < 2 ^ 32 →
    valnames !! i = Some v →
    keyword ("ARG" +:+ convert (j + N.of_nat i + 1))
      (arg_loop j valnames ++ tail) = Some v.
Proof.
  induction valnames as [|v0 rest IH]; intros j i v Hj Hi; [done|].
  simpl length in Hj. cbn [arg_loop app keyword].
  rewrite u32_small, split_eq_ARG by lia.
  destruct i as [|i].
  - injection Hi as ->. rewrite N.add_0_r. by rewrite decide_True.
  - rewrite decide_False by (intros H%ARG_key_inj; lia).
    replace (j + N.of_nat (S i) + 1) with (j + 1 + N.of_nat i + 1) by lia.
    apply IH; [lia|exact Hi].
Qed.

Lemma arg_loop_skipped (key : string) (valnames tail : list string) :
  (∀ n, key ≠ "ARG" +:+ convert n) →
  ∀ j, keyword key (arg_loop j valnames ++ tail) = keyword key tail.
Proof.
  intros Hkey. induction valnames as [|v0 rest IH]; intros j; [done|].
  cbn [arg_loop app keyword]. rewrite split_eq_ARG.
  rewrite decide_False by (intros H; by apply (Hkey (u32 (j + 1)))).
  apply IH.
Qed.

(** X6: for fewer than [2^32] input names, every KERNEL action carries them
    in their order as [ARG1=], [ARG2=], ...: name number [i + 1] is the word
    at place [3 + i], it can be read back under the key [ARGi+1], the
    kernel's own text can be read back under the key [KERNEL], and the action
    has four words besides the names. *)
Theorem kernel_action_carries_the_names
    (lab num : string) (valnames : list string) (kk : KernelFunctions)
    (i : nat) (v : string) :
  N.of_nat (length valnames) < 2 ^ 32 →
  valnames !! i = Some v →
  kinput lab valnames num kk !! (3 + i)%nat
  = Some ("ARG" +:+ convert (N.of_nat i + 1) +:+ "=" +:+ v)
  ∧ keyword ("ARG" +:+ convert (N.of_nat i + 1)) (kernel_words valnames kk)
    = Some v
  ∧ keyword "KERNEL" (kernel_words valnames kk) = Some (getInputString kk)
  ∧ length (kinput lab valnames num kk) = (4 + length valnames)%nat.
Proof.
  intros Hlen Hi. split; [|split; [|split]].
  - unfold kinput. rewrite lookup_app_r by (simpl; lia).
    simpl length. replace (3 + i - 3)%nat with i by lia.
    rewrite lookup_app_l by (rewrite length_arg_loop; by eapply lookup_lt_Some).
    rewrite (arg_loop_lookup valnames 0 i v) by (rewrite ?N.add_0_l; done).
    by rewrite N.add_0_l.
  - unfold kernel_words. cbn [app keyword].
    change (split_eq "NORMALIZED") with ("NORMALIZED", "").
    cbn iota. rewrite decide_False by discriminate.
    rewrite <-(N.add_0_l (N.of_nat i)).
    apply arg_loop_keyword; [by rewrite N.add_0_l|done].
  - unfold kernel_words. cbn [app keyword].
    change (split_eq "NORMALIZED") with ("NORMALIZED", "").
    cbn iota. rewrite decide_False by discriminate.
    rewrite arg_loop_skipped by discriminate.
    cbn [keyword].
    change (split_eq ("KERNEL=" +:+ getInputString kk))
      with ("KERNEL", getInputString kk).
    cbn iota. by rewrite decide_True.
  - unfold kinput. rewrite !length_app, length_arg_loop. simpl. lia.
Qed.

Lemma kernel_action_carries_the_names_witness :
  kinput "p" ["phi"; "psi"] "1" {| getInputString := "k1" |} !! (3 + 1)%nat
  = Some ("ARG" +:+ convert (N.of_nat 1 + 1) +:+ "=" +:+ "psi")
  ∧ keyword ("ARG" +:+ convert (N.of_nat 1 + 1))
      (kernel_words ["phi"; "psi"] {| getInputString := "k1" |}) = Some "psi"
  ∧ keyword "KERNEL" (kernel_words ["phi"; "psi"] {| getInputString := "k1" |})
    = Some "k1"
  ∧ length (kinput "p" ["phi"; "psi"] "1" {| getInputString := "k1" |})
    = (4 + 2)%nat.
Proof.
  apply (kernel_action_carries_the_names "p" "1" ["phi"; "psi"]
           {| getInputString := "k1" |} 1 "psi"); reflexivity.
Defined.

(** ** No label is given twice *)

Lemma labels_of_cons (a : action) (l : list action) (x : string) :
  label_of a = Some x → labels_of (a :: l) = x :: labels_of l.
Proof. intros H. unfold labels_of. cbn [omap list_omap]. by rewrite H. Qed.

Lemma labels_of_app (l k : list action) :
  labels_of (l ++ k) = labels_of l ++ labels_of k.
Proof. apply omap_app. Qed.

Lemma label_of_kinput_Some (lab : string) (valnames : list string) (k : N)
    (kk : KernelFunctions) :
  label_of (kinput lab valnames (convert k) kk) = Some (kernel_label lab k).
Proof. rewrite label_of_kinput. cbn [label_of]. apply strip_colon_app. Qed.

Lemma label_of_finput_Some (lab : string) (k : N) :
  label_of (finput lab (convert k)) = Some (output_label lab k).
Proof. rewrite label_of_finput. cbn [label_of]. apply strip_colon_app. Qed.

Lemma labels_of_kernel_actions_elem (lab : string) (valnames : list string)
    (kks : list KernelFunctions) :
  ∀ (k : N) (x : string),
    x ∈ labels_of (kernel_actions lab valnames k kks) →
    ∃ m, k < m ∧ x = kernel_label lab m.
Proof.
  induction kks as [|kk kks IH]; intros k x Hx.
  { by apply elem_of_nil in Hx. }
  cbn [kernel_actions] in Hx.
  rewrite (labels_of_cons _ _ _ (label_of_kinput_Some _ _ _ _)) in Hx.
  apply elem_of_cons in Hx as [->|Hx].
  - exists (k + 1). split; [lia|done].
  - destruct (IH (k + 1) x Hx) as (m & Hm & ->). exists m. split; [lia|done].
Qed.

Lemma labels_of_kernel_actions_NoDup (lab : string) (valnames : list string)
    (kks : list KernelFunctions) :
  ∀ k, NoDup (labels_of (kernel_actions lab valnames k kks)).
Proof.
  induction kks as [|kk kks IH]; intros k; [constructor|].
  cbn [kernel_actions].
  rewrite (labels_of_cons _ _ _ (label_of_kinput_Some _ _ _ _)).
  apply NoDup_cons. split; [|apply IH].
  intros (m & Hm & Heq%kernel_label_inj)%labels_of_kernel_actions_elem. lia.
Qed.

Lemma labels_of_sums (lab regularise : string) (n : N) :
  labels_of [ksum_action lab n; minput lab regularise]
  = [ksum_label lab; rksum_label lab].
Proof.
  rewrite (labels_of_cons _ _ (ksum_label lab)).
  - rewrite (labels_of_cons _ _ (rksum_label lab)); [done|].
    rewrite label_of_minput. cbn [label_of]. apply strip_colon_app.
  - rewrite label_of_ksum_action. cbn [label_of]. apply strip_colon_app.
Qed.

Lemma from_output_suffix (lab : string) (k : N) (x : string) :
  from_output lab k x → ∃ s, x = output_label lab k +:+ s.
Proof.
  intros [->|[s ->]]; [exists ""; by rewrite app_empty_r|by eexists].
Qed.

Lemma output_label_not_self_extended (lab : string) (k : N) (s : string) :
  output_label lab k +:+ "_" +:+ s ≠ output_label lab k.
Proof. apply output_label_not_extended. Qed.

Lemma from_output_inj (lab : string) (j k : N) (x : string) :
  from_output lab j x → from_output lab k x → j = k.
Proof.
  intros [->|[s ->]] [Hk|[s' Hk]].
  - by apply (output_label_inj lab).
  - symmetry in Hk. by apply output_label_not_extended in Hk.
  - by apply output_label_not_extended in Hk.
  - unfold output_label in Hk. rewrite !app_assoc' in Hk.
    apply (inj (String.app lab)) in Hk. apply (inj (String.app "-")) in Hk.
    apply digits_then_mark in Hk as (Hc & _ & _);
      [by apply convert_inj|apply convert_digits..|done|done].
Qed.

Section Labels.

Variable expandFunctions :
  string → string → string → list string → keymap → list action.
Hypothesis functions_fresh : extends_labout expandFunctions.

Lemma labels_of_block (lab : string) (words : list string) (keys : keymap)
    (k : N) :
  labels_of (responsibility_block expandFunctions lab words keys k)
  = output_label lab (k + 1)
      :: labels_of (expandFunctions (output_label lab (k + 1))
                      (output_label lab (k + 1)) "" words keys).
Proof.
  unfold responsibility_block.
  by rewrite (labels_of_cons _ _ _ (label_of_finput_Some _ _)).
Qed.

Lemma labels_of_functions_elem (labout argin weights : string)
    (words : list string) (keys : keymap) (x : string) :
  x ∈ labels_of (expandFunctions labout argin weights words keys) →
  ∃ s, x = labout +:+ "_" +:+ s.
Proof.
  intros (a & Ha & Hl)%list_elem_of_omap.
  by apply (functions_fresh _ _ _ _ _ _ _ Ha).
Qed.

Lemma labels_of_block_elem (lab : string) (words : list string)
    (keys : keymap) (k : N) (x : string) :
  x ∈ labels_of (responsibility_block expandFunctions lab words keys k) →
  from_output lab (k + 1) x.
Proof.
  rewrite labels_of_block. intros [->|Hx]%elem_of_cons; [by left|].
  right. by apply labels_of_functions_elem in Hx.
Qed.

Lemma labels_of_blocks_elem (lab : string) (words : list string)
    (keys : keymap) (ks : list N) (x : string) :
  x ∈ labels_of
        (concat (responsibility_block expandFunctions lab words keys <$> ks)) →
  ∃ k, k ∈ ks ∧ from_output lab (k + 1) x.
Proof.
  induction ks as [|k ks IH]; [by intros ?%elem_of_nil|].
  cbn [fmap list_fmap concat]. rewrite labels_of_app.
  intros [Hx%labels_of_block_elem|Hx]%elem_of_app.
  - exists k. split; [by left|done].
  - destruct (IH Hx) as (k' & Hk' & Hfrom). exists k'. split; [by right|done].
Qed.

Lemma labels_of_blocks_NoDup (lab : string) (words : list string)
    (keys : keymap) (ks : list N) :
  (∀ labout argin weights,
     NoDup (labels_of (expandFunctions labout argin weights words keys))) →
  NoDup ks →
  NoDup (labels_of
           (concat (responsibility_block expandFunctions lab words keys
                      <$> ks))).
Proof.
  intros Hfun. induction 1 as [|k ks Hk _ IH]; [constructor|].
  cbn [fmap list_fmap concat]. rewrite labels_of_app.
  apply NoDup_app. split; [|split; [|done]].
  - rewrite labels_of_block. apply NoDup_cons. split; [|apply Hfun].
    intros [s Hs]%labels_of_functions_elem. symmetry in Hs.
    by apply output_label_not_self_extended in Hs.
  - intros x Hx%labels_of_block_elem (k' & Hk' & Hx')%labels_of_blocks_elem.
    assert (k + 1 = k' + 1) as Heq by (by eapply from_output_inj).
    assert (k = k') by lia. by subst.
Qed.

Lemma uint_range_NoDup (n : N) : NoDup (uint_range n).
Proof.
  unfold uint_range. apply NoDup_fmap_2; [apply _|apply NoDup_seq].
Qed.

(** The labels of everything the expansion adds for an accepted input. *)
Lemma added_labels_NoDup (lab : string) (words : list string) (keys : keymap)
    (valnames : list string) (kks : list KernelFunctions) (regularise : string)
    (n : N) :
  (∀ labout argin weights,
     NoDup (labels_of (expandFunctions labout argin weights words keys))) →
  NoDup (labels_of
           (kernel_actions lab valnames 0 kks
              ++ [ksum_action lab n; minput lab regularise]
              ++ responsibility_actions expandFunctions lab words keys n)).
Proof.
  intros Hfun. unfold responsibility_actions.
  rewrite !labels_of_app, labels_of_sums.
  destruct (kernel_label_not_sums lab 0) as (_ & _ & Hsums).
  apply NoDup_app. split; [apply labels_of_kernel_actions_NoDup|]. split.
  - intros x (m & _ & ->)%labels_of_kernel_actions_elem Hin.
    destruct (kernel_label_not_sums lab m) as (Hk & Hr & _).
    apply elem_of_app in Hin as [Hin|Hin].
    + apply elem_of_cons in Hin as [Hin|Hin]; [done|].
      by apply list_elem_of_singleton in Hin.
    + apply labels_of_blocks_elem in Hin as (k & _ & [s Hs]%from_output_suffix).
      symmetry in Hs. by apply output_label_not_kernel in Hs.
  - apply NoDup_app. split; [|split].
    + apply NoDup_cons. split; [|apply NoDup_singleton].
      by intros ?%list_elem_of_singleton.
    + intros x Hx (k & _ & [s Hs]%from_output_suffix)%labels_of_blocks_elem.
      apply elem_of_cons in Hx as [->|Hx].
      * symmetry in Hs. by apply output_label_not_ksum in Hs.
      * apply list_elem_of_singleton in Hx as ->. symmetry in Hs.
        by apply output_label_not_rksum in Hs.
    + apply labels_of_blocks_NoDup; [done|apply uint_range_NoDup].
Qed.

End Labels.

(** X7: for an accepted input, no two of the actions the expansion adds
    carry the same label, provided the actions [expandFunctions] appends for
    an output are labelled [labout_...] and differ in their labels among
    themselves. *)
Theorem expandShortcut_labels_differ
    (parseRecord : string → list string → option KernelFunctions)
    (expandFunctions :
       string → string → string → list string → keymap → list action)
    (files : gmap string (list string))
    (fuel : nat) (lab : string) (words : list string) (keys : keymap)
    (actions : list action) (data regularise : string) (rs : list string)
    (kks : list KernelFunctions) :
  extends_labout expandFunctions →
  (∀ labout argin weights,
     NoDup (labels_of (expandFunctions labout argin weights words keys))) →
  accepted parseRecord files words keys data regularise rs kks →
  (length rs < fuel)%nat →
  ∃ added,
    expandShortcut parseRecord expandFunctions files fuel lab words keys actions
    = Ok (actions ++ added)
    ∧ NoDup (labels_of added).
Proof.
  intros Hfresh Hfun Hacc Hfuel. eexists. split.
  - by apply (expandShortcut_closed _ _ _ _ _ _ _ _ _ _ _ _ Hacc).
  - by apply added_labels_NoDup.
Qed.

Lemma mean_function_labels (labout argin weights : string)
    (words : list string) (keys : keymap) :
  NoDup (labels_of (Manual.mean_function labout argin weights words keys)).
Proof.
  unfold Manual.mean_function. destruct (keys !! "MEAN"); [|constructor].
  rewrite (labels_of_cons _ _ (labout +:+ "_mean")).
  - apply NoDup_singleton.
  - cbn [label_of].
    replace (labout +:+ "_mean:") with ((labout +:+ "_mean") +:+ ":")
      by (by rewrite app_assoc').
    apply strip_colon_app.
Qed.

Lemma expandShortcut_labels_differ_witness :
  ∃ added,
    expandShortcut Manual.parse Manual.mean_function Manual.files 3 "p"
      Manual.words (<["MEAN" := ""]> Manual.keys) [] = Ok ([] ++ added)
    ∧ NoDup (labels_of added).
Proof.
  apply (expandShortcut_labels_differ Manual.parse Manual.mean_function
           Manual.files 3 "p" Manual.words (<["MEAN" := ""]> Manual.keys) []
           "phi,psi" "0.001" ["k1"; "k2"] Manual.kernels).
  - apply mean_function_extends.
  - intros labout argin weights. apply mean_function_labels.
  - split; try reflexivity.
    + exists "clusters.dat". split; reflexivity.
    + repeat constructor.
  - simpl. lia.
Defined.

(** The labels of the manual's example. *)
Example manual_labels :
  labels_of
    (match expandShortcut Manual.parse Manual.mean_function Manual.files 3 "p"
             Manual.words (<["MEAN" := ""]> Manual.keys) [] with
     | Ok acts => acts
     | _ => []
     end)
  = ["p_kernel-1"; "p_kernel-2"; "p_ksum"; "p_rksum"; "p-1"; "p-1_mean";
     "p-2"; "p-2_mean"].
Proof. reflexivity. Qed.
